(** * The [matrix:] scheme permalink codec of matrix-react-sdk

    A shallow embedding of [MatrixSchemePermalinkConstructor]
    (src/components/views/voip/CallViewSidebar.tsx, second document, the
    class that generates and parses [matrix:] URIs), followed by the
    properties its specification states about it.

    JavaScript strings are sequences of UTF-16 code units; they are modelled
    as lists of code units ([N]), so that [encodeURIComponent], which works
    on code units and may raise [URIError], is modelled as it behaves.
    Exceptions are values of a small error monad. *)

From Stdlib Require Import List NArith ZArith String Ascii Bool Arith Lia.
From Stdlib Require Import DecimalString DecimalNat.
Import ListNotations.

(** ** The JavaScript built-ins the class uses *)

Module JS.

(** A UTF-16 code unit, and a string as the sequence of its code units. *)
Abbreviation char16 := N (only parsing).
Abbreviation jsstring := (list N) (only parsing).

(** A string literal of the source (ASCII only). *)
Definition lit (s : string) : jsstring :=
  map N_of_ascii (list_ascii_of_string s).

(** What a [throw] carries: [new Error(message)], or one of the errors
    the built-ins raise. *)
Inductive exn : Type :=
| Error (message : jsstring)
| URIError
| TypeError.

(** A computation that returns a value or throws. *)
Inductive result (A : Type) : Type :=
| Ok (a : A)
| Throw (e : exn).
Arguments Ok {A} a.
Arguments Throw {A} e.

Definition bind {A B} (m : result A) (k : A -> result B) : result B :=
  match m with
  | Ok a => k a
  | Throw e => Throw e
  end.

(** [s1 === s2] on two strings. *)
Fixpoint streq (a b : jsstring) : bool :=
  match a, b with
  | [], [] => true
  | x :: a', y :: b' => N.eqb x y && streq a' b'
  | _, _ => false
  end.

(** [v === s] where [v] is a string or [undefined] ([None]) and [s] a
    string. *)
Definition strict_eq (v : option jsstring) (s : jsstring) : bool :=
  match v with
  | Some x => streq x s
  | None => false
  end.

(** [s[i]]: the one-character string at index [i], or [undefined]. *)
Definition index (s : jsstring) (i : nat) : option jsstring :=
  match nth_error s i with
  | Some c => Some [c]
  | None => None
  end.

(** [!!s] for a string: the empty string is the only falsy one. *)
Definition truthy (s : jsstring) : bool :=
  match s with
  | [] => false
  | _ :: _ => true
  end.

(** [s.slice(n)] and [s.substring(n)] for a non-negative [n]. *)
Definition slice (s : jsstring) (n : nat) : jsstring := skipn n s.
Definition substring (s : jsstring) (n : nat) : jsstring := skipn n s.

(** [s.startsWith(p)]. *)
Fixpoint startsWith (s p : jsstring) {struct p} : bool :=
  match p with
  | [] => true
  | c :: p' =>
      match s with
      | [] => false
      | d :: s' => N.eqb d c && startsWith s' p'
      end
  end.

(** A value interpolated in a template literal: [undefined] prints as
    the word. *)
Definition template (v : option jsstring) : jsstring :=
  match v with
  | Some s => s
  | None => lit "undefined"
  end.

(** Puts a code unit in front of the first piece of a split. *)
Definition cons_head (c : char16) (ps : list jsstring) : list jsstring :=
  match ps with
  | [] => [[c]]
  | p :: ps' => (c :: p) :: ps'
  end.

(** [l.join(sep)]. *)
Fixpoint join (sep : jsstring) (l : list jsstring) : jsstring :=
  match l with
  | [] => []
  | x :: l' =>
      match l' with
      | [] => x
      | _ :: _ => x ++ sep ++ join sep l'
      end
  end.

(** [s.split(re)] for a regular expression without groups that never
    matches the empty string. [m s] is the length of the match of [re]
    anchored at the start of [s], if there is one. The scan goes from
    left to right; at a match the current piece ends and the matched
    code units ([skip] counts those still to pass) belong to no piece. *)
Section SplitRegExp.
Variable m : jsstring -> option nat.

Fixpoint split_re_from (skip : nat) (s : jsstring) : list jsstring :=
  match s with
  | [] => [[]]
  | c :: s' =>
      match skip with
      | S k => split_re_from k s'
      | O =>
          match m s with
          | Some (S n) => [] :: split_re_from n s'
          | _ => cons_head c (split_re_from 0 s')
          end
      end
  end.

Definition split_re (s : jsstring) : list jsstring := split_re_from 0 s.
End SplitRegExp.

(** [s.split(sep)] for a non-empty separator string: the same scan, a
    match being an occurrence of [sep]. *)
Definition match_literal (sep s : jsstring) : option nat :=
  if startsWith s sep then Some (List.length sep) else None.

Definition split (sep s : jsstring) : list jsstring :=
  split_re (match_literal sep) s.

(** *** encodeURIComponent (ECMAScript, Encode with no extra unescaped
    characters) *)

Definition between (lo hi c : N) : bool := N.leb lo c && N.leb c hi.

(** uriUnescaped: letters, digits and the marks - _ . ! ~ * ' ( ) *)
Definition unescaped (c : char16) : bool :=
  between 65 90 c || between 97 122 c || between 48 57 c
  || existsb (N.eqb c) [45; 95; 46; 33; 126; 42; 39; 40; 41]%N.

Definition is_lead (c : char16) : bool := between 0xD800 0xDBFF c.
Definition is_trail (c : char16) : bool := between 0xDC00 0xDFFF c.

(** The code point of a surrogate pair. *)
Definition pair_code_point (hi lo : char16) : N :=
  ((hi - 0xD800) * 0x400 + (lo - 0xDC00) + 0x10000)%N.

(** The UTF-8 octets of a code point. *)
Definition utf8 (cp : N) : list N :=
  if N.ltb cp 0x80 then [cp]
  else if N.ltb cp 0x800 then
    [N.lor 0xC0 (N.shiftr cp 6); N.lor 0x80 (N.land cp 0x3F)]
  else if N.ltb cp 0x10000 then
    [N.lor 0xE0 (N.shiftr cp 12);
     N.lor 0x80 (N.land (N.shiftr cp 6) 0x3F);
     N.lor 0x80 (N.land cp 0x3F)]
  else
    [N.lor 0xF0 (N.shiftr cp 18);
     N.lor 0x80 (N.land (N.shiftr cp 12) 0x3F);
     N.lor 0x80 (N.land (N.shiftr cp 6) 0x3F);
     N.lor 0x80 (N.land cp 0x3F)].

(** An upper-case hexadecimal digit. *)
Definition hexdigit (n : N) : char16 :=
  if N.ltb n 10 then (48 + n)%N else (55 + n)%N.

(** "%XX" for an octet. *)
Definition percent (b : N) : jsstring :=
  [37%N; hexdigit (N.shiftr b 4); hexdigit (N.land b 15)].

Definition escape (cp : N) : jsstring := flat_map percent (utf8 cp).

Fixpoint encodeURIComponent (s : jsstring) : result jsstring :=
  match s with
  | [] => Ok []
  | c :: rest =>
      if unescaped c then
        bind (encodeURIComponent rest) (fun r => Ok (c :: r))
      else if is_trail c then Throw URIError
      else if is_lead c then
        match rest with
        | t :: rest' =>
            if is_trail t then
              bind (encodeURIComponent rest')
                   (fun r => Ok (escape (pair_code_point c t) ++ r))
            else Throw URIError
        | [] => Throw URIError
        end
      else bind (encodeURIComponent rest) (fun r => Ok (escape c ++ r))
  end.

(** [l.map(f)] for an [f] that may throw: the first failure aborts. *)
Fixpoint map_throwing {A B} (f : A -> result B) (l : list A)
  : result (list B) :=
  match l with
  | [] => Ok []
  | x :: l' =>
      bind (f x) (fun y => bind (map_throwing f l') (fun ys => Ok (y :: ys)))
  end.

End JS.

Import JS.

Declare Scope js_scope.
Delimit Scope js_scope with js.
Notation "x <- m ;; k" := (bind m (fun x => k))
  (at level 61, m at next level, right associativity) : js_scope.
Open Scope js_scope.

(** ** PermalinkConstructor.ts (not part of the excerpt) *)

Module PermalinkConstructor.

(** Modelled from the spec: the file PermalinkConstructor.ts, which
    declares [PermalinkParts] and its factories [forUser], [forRoom] and
    [forEvent], is missing. The spec's data model has it as a tagged union
    of the variants User, Room and Event, each holding its identifiers,
    the room and event variants with the list of server candidates (the
    User variant carries none). *)
Inductive PermalinkParts : Type :=
| User (userId : jsstring)
| Room (roomIdOrAlias : jsstring) (viaServers : list jsstring)
| Event (roomId : jsstring) (eventId : jsstring)
        (viaServers : list jsstring).

Definition forUser (userId : jsstring) : PermalinkParts := User userId.
Definition forRoom (roomIdOrAlias : jsstring) (viaServers : list jsstring)
  : PermalinkParts := Room roomIdOrAlias viaServers.
Definition forEvent (roomId eventId : jsstring)
           (viaServers : list jsstring) : PermalinkParts :=
  Event roomId eventId viaServers.

End PermalinkConstructor.

(** ** MatrixSchemePermalinkConstructor *)

Module MatrixSchemePermalinkConstructor.
Import PermalinkConstructor.

Definition encodeEntity (entity : jsstring) : result jsstring :=
  if strict_eq (index entity 0) (lit "!") then
    Ok (lit "roomid/" ++ slice entity 1)
  else if strict_eq (index entity 0) (lit "#") then
    Ok (lit "r/" ++ slice entity 1)
  else if strict_eq (index entity 0) (lit "@") then
    Ok (lit "u/" ++ slice entity 1)
  else if strict_eq (index entity 0) (lit "$") then
    Ok (lit "e/" ++ slice entity 1)
  else Throw (Error (lit "Cannot encode entity: " ++ entity)).

(** [candidates] may be absent ([None]): the method tests [!candidates]. *)
Definition encodeServerCandidates (candidates : option (list jsstring))
  : result jsstring :=
  match candidates with
  | None => Ok []
  | Some cs =>
      if Nat.eqb (List.length cs) 0 then Ok []
      else
        es <- map_throwing encodeURIComponent cs ;;
        Ok (lit "?via=" ++ join (lit "&via=") es)
  end.

Definition forEvent (roomId eventId : jsstring)
           (serverCandidates : list jsstring) : result jsstring :=
  r <- encodeEntity roomId ;;
  e <- encodeEntity eventId ;;
  q <- encodeServerCandidates (Some serverCandidates) ;;
  Ok ((lit "matrix:" ++ r) ++ (lit "/" ++ e ++ q)).

Definition forRoom (roomIdOrAlias : jsstring)
           (serverCandidates : list jsstring) : result jsstring :=
  r <- encodeEntity roomIdOrAlias ;;
  q <- encodeServerCandidates (Some serverCandidates) ;;
  Ok (lit "matrix:" ++ r ++ q).

Definition forUser (userId : jsstring) : result jsstring :=
  u <- encodeEntity userId ;;
  Ok (lit "matrix:" ++ u).

Definition forEntity (entityId : jsstring) : result jsstring :=
  e <- encodeEntity entityId ;;
  Ok (lit "matrix:" ++ e).

Definition isPermalinkHost (testHost : jsstring) : bool :=
  streq testHost (lit "").

(** The regular expression [/&?via=/g] anchored at the start of [s]: the
    optional ampersand is greedy, and given up when "via=" does not
    follow it. *)
Definition match_via (s : jsstring) : option nat :=
  if startsWith s (lit "&via=") then Some 5
  else if startsWith s (lit "via=") then Some 4
  else None.

(** [query.split(/&?via=/g).filter((p) => !!p)] *)
Definition parse_via (query : jsstring) : list jsstring :=
  filter truthy (split_re match_via query).

(** [const [a, b = ""] = arr]: the second element defaults to the empty
    string when the array has none. *)
Definition second_or_empty (arr : list jsstring) : jsstring :=
  match nth_error arr 1 with
  | Some q => q
  | None => []
  end.

(** The errors of the specification's taxonomy, each the [Error] with the
    message the source throws. *)
Definition NotAPermalink : exn :=
  Error (lit "Does not appear to be a permalink").
Definition MalformedRoomPermalink : exn :=
  Error (lit "Faulty room permalink").
Definition UnknownEntityType : exn :=
  Error (lit "Unknown entity type in permalink").
Definition UnrecognizedSigil (entity : jsstring) : exn :=
  Error (lit "Cannot encode entity: " ++ entity).

Definition parsePermalink (fullUrl : jsstring) : result PermalinkParts :=
  if negb (truthy fullUrl) || negb (startsWith fullUrl (lit "matrix:")) then
    Throw (Error (lit "Does not appear to be a permalink"))
  else
    let parts := split (lit "/") (substring fullUrl (List.length (lit "matrix:"))) in
    let identifier := nth_error parts 0 in
    let entityNoSigil := nth_error parts 1 in
    if strict_eq identifier (lit "u") then
      Ok (PermalinkConstructor.forUser (lit "@" ++ template entityNoSigil))
    else if strict_eq identifier (lit "r")
            || strict_eq identifier (lit "roomid") then
      let sigil := if strict_eq identifier (lit "r")
                   then lit "#" else lit "!" in
      if Nat.eqb (List.length parts) 2 then
        match entityNoSigil with
        | None => Throw TypeError
        | Some entity =>
            let arr := split (lit "?") entity in
            let roomId := nth_error arr 0 in
            let query := second_or_empty arr in
            let via := parse_via query in
            Ok (PermalinkConstructor.forRoom (sigil ++ template roomId) via)
        end
      else if strict_eq (nth_error parts 2) (lit "e") then
        let eventIdAndQuery :=
          if Nat.ltb 3 (List.length parts)
          then join (lit "/") (skipn 3 parts) else lit "" in
        let arr := split (lit "?") eventIdAndQuery in
        let eventId := nth_error arr 0 in
        let query := second_or_empty arr in
        let via := parse_via query in
        Ok (PermalinkConstructor.forEvent
              (sigil ++ template entityNoSigil)
              (lit "$" ++ template eventId) via)
      else Throw (Error (lit "Faulty room permalink"))
    else Throw (Error (lit "Unknown entity type in permalink")).

End MatrixSchemePermalinkConstructor.

Import PermalinkConstructor.
Import MatrixSchemePermalinkConstructor.

(** ** Notions the properties are stated with *)

(** The four sigils. *)
Definition sigils : jsstring := lit "!#@$".

(** The text of [s] before the first [sep] (all of [s] when there is
    none), and the text after it (empty when there is none). *)
Fixpoint upto (sep : char16) (s : jsstring) : jsstring :=
  match s with
  | [] => []
  | c :: s' => if N.eqb c sep then [] else c :: upto sep s'
  end.

Fixpoint after (sep : char16) (s : jsstring) : jsstring :=
  match s with
  | [] => []
  | c :: s' => if N.eqb c sep then s' else after sep s'
  end.

(** The code units of "/" and "?". *)
Definition slash : char16 := 47%N.
Definition qmark : char16 := 63%N.

(** The two kinds of room reference, each with the sigil it stands for. *)
Definition room_kinds : list (jsstring * jsstring) :=
  [(lit "r", lit "#"); (lit "roomid", lit "!")].

(** The pieces of a split put back together, with the separators that
    stood between them. *)
Fixpoint weave (pieces seps : list jsstring) : jsstring :=
  match pieces with
  | [] => []
  | p :: ps =>
      match seps with
      | [] => p
      | s :: ss => p ++ s ++ weave ps ss
      end
  end.

(** What [/&?via=/] can match. *)
Definition via_separator (s : jsstring) : Prop :=
  s = lit "&via=" \/ s = lit "via=".

(** A code unit that is neither "&" nor "=". *)
Definition plain (c : char16) : bool := negb (N.eqb c 38) && negb (N.eqb c 61).

(** Puts a text in front of the first piece of a split. *)
Definition prepend (e : jsstring) (ps : list jsstring) : list jsstring :=
  match ps with
  | [] => [e]
  | p :: ps' => (e ++ p) :: ps'
  end.

(** A code unit that is none of "&", "=", "/" and "?", the characters the
    parser gives a meaning to. *)
Definition inert (c : char16) : bool :=
  negb (N.eqb c 38) && negb (N.eqb c 61)
  && negb (N.eqb c 47) && negb (N.eqb c 63).

(** A code unit that may stand in a URI query as it is: an unescaped
    character or the "%" of an escape. *)
Definition uri_safe (c : char16) : bool := unescaped c || N.eqb c 37.

(** A code unit has 16 bits. *)
Definition code_unit (c : char16) : Prop := (c < 65536)%N.

(** Well-formed UTF-16: every surrogate is part of a pair. *)
Fixpoint well_formed (s : jsstring) : bool :=
  match s with
  | [] => true
  | c :: rest =>
      if is_trail c then false
      else if is_lead c then
        match rest with
        | t :: rest' => is_trail t && well_formed rest'
        | [] => false
        end
      else well_formed rest
  end.

(** The query as the specification words it: empty for no candidate,
    otherwise "?" and the parameters "via=<candidate>" joined by "&". *)
Definition via_query (es : list jsstring) : jsstring :=
  match es with
  | [] => []
  | _ :: _ => lit "?" ++ join (lit "&") (map (fun e => lit "via=" ++ e) es)
  end.

(** The permalink of a [PermalinkParts] value, by the builder of its
    variant. *)
Definition render (P : PermalinkParts) : result jsstring :=
  match P with
  | User userId => forUser userId
  | Room roomIdOrAlias viaServers => forRoom roomIdOrAlias viaServers
  | Event roomId eventId viaServers => forEvent roomId eventId viaServers
  end.

(** Parsing the rendered permalink gives the value back. *)
Definition round_trip (P : PermalinkParts) : Prop :=
  bind (render P) parsePermalink = Ok P.

(** The first character of an identifier is the given sigil. *)
Definition has_sigil (sigil id : jsstring) : Prop :=
  hd_error id = hd_error sigil.

Definition room_sigil (id : jsstring) : Prop :=
  has_sigil (lit "!") id \/ has_sigil (lit "#") id.

(** The identifiers carry the sigils of their kinds: "!" or "#" for a
    room, "@" for a user, "$" for an event. *)
Definition legal_sigils (P : PermalinkParts) : Prop :=
  match P with
  | User userId => has_sigil (lit "@") userId
  | Room roomIdOrAlias _ => room_sigil roomIdOrAlias
  | Event roomId eventId _ =>
      room_sigil roomId /\ has_sigil (lit "$") eventId
  end.

(** A server candidate that survives the journey: not empty, and made of
    unescaped characters only. *)
Definition survives (candidate : jsstring) : Prop :=
  candidate <> [] /\ forallb unescaped candidate = true.

(** What the parser cannot tell apart is absent from the value: no "/" in
    a user id or a room id, no "?" in the id that precedes the query, and
    only candidates that survive. *)
Definition unambiguous (P : PermalinkParts) : Prop :=
  match P with
  | User userId => ~ In slash userId
  | Room roomIdOrAlias viaServers =>
      ~ In slash roomIdOrAlias /\ ~ In qmark roomIdOrAlias
      /\ Forall survives viaServers
  | Event roomId eventId viaServers =>
      ~ In slash roomId /\ ~ In qmark eventId
      /\ Forall survives viaServers
  end.

(** ** Notions for the further properties of the permalink codec *)

(** The identifier starts with one of the four sigils. *)
Definition sigiled (id : jsstring) : bool :=
  match id with
  | [] => false
  | c :: _ => existsb (N.eqb c) sigils
  end.

(** The "/"-separated segments of the text after "matrix:". *)
Definition segments (fullUrl : jsstring) : list jsstring :=
  split (lit "/") (substring fullUrl 7).

(** The outcomes of parsePermalink, each with the shape of input that
    leads to it. *)
Inductive parse_outcome (fullUrl : jsstring) : result PermalinkParts -> Prop :=
| outcome_not_matrix :
    startsWith fullUrl (lit "matrix:") = false ->
    parse_outcome fullUrl (Throw NotAPermalink)
| outcome_user :
    startsWith fullUrl (lit "matrix:") = true ->
    nth_error (segments fullUrl) 0 = Some (lit "u") ->
    parse_outcome fullUrl
      (Ok (User (lit "@" ++ template (nth_error (segments fullUrl) 1))))
| outcome_room kind sigil entity :
    startsWith fullUrl (lit "matrix:") = true ->
    In (kind, sigil) room_kinds ->
    segments fullUrl = [kind; entity] ->
    parse_outcome fullUrl
      (Ok (Room (sigil ++ upto qmark entity)
                (parse_via (upto qmark (after qmark entity)))))
| outcome_event kind sigil entity rest :
    startsWith fullUrl (lit "matrix:") = true ->
    In (kind, sigil) room_kinds ->
    segments fullUrl = kind :: entity :: lit "e" :: rest ->
    parse_outcome fullUrl
      (Ok (Event (sigil ++ entity)
                 (lit "$" ++ upto qmark (join (lit "/") rest))
                 (parse_via (upto qmark (after qmark (join (lit "/") rest))))))
| outcome_malformed kind sigil :
    startsWith fullUrl (lit "matrix:") = true ->
    In (kind, sigil) room_kinds ->
    nth_error (segments fullUrl) 0 = Some kind ->
    List.length (segments fullUrl) <> 2 ->
    nth_error (segments fullUrl) 2 <> Some (lit "e") ->
    parse_outcome fullUrl (Throw MalformedRoomPermalink)
| outcome_unknown :
    startsWith fullUrl (lit "matrix:") = true ->
    nth_error (segments fullUrl) 0 <> Some (lit "u") ->
    nth_error (segments fullUrl) 0 <> Some (lit "r") ->
    nth_error (segments fullUrl) 0 <> Some (lit "roomid") ->
    parse_outcome fullUrl (Throw UnknownEntityType).

(** The server candidates of a parsed value (a User has none). *)
Definition via_of (P : PermalinkParts) : list jsstring :=
  match P with
  | User _ => []
  | Room _ viaServers => viaServers
  | Event _ _ viaServers => viaServers
  end.

(** [pat] occurs somewhere in [s]. *)
Fixpoint contains (pat s : jsstring) : bool :=
  startsWith s pat
  || match s with
     | [] => false
     | _ :: s' => contains pat s'
     end.

(** ** RoomSearch (src/components/structures/RoomSearch.tsx) *)

Module RoomSearch.

(** The code units [String.prototype.trim] removes: ECMAScript's
    WhiteSpace and LineTerminator. *)
Definition is_space (c : char16) : bool :=
  existsb (N.eqb c)
          [9; 10; 11; 12; 13; 32; 0xA0; 0x1680; 0x2028; 0x2029; 0x202F;
           0x205F; 0x3000; 0xFEFF]%N
  || between 0x2000 0x200A c.

Fixpoint trimStart (s : jsstring) : jsstring :=
  match s with
  | [] => []
  | c :: s' => if is_space c then trimStart s' else s
  end.

(** [s.trim()] *)
Definition trim (s : jsstring) : jsstring :=
  rev (trimStart (rev (trimStart s))).

(** [s.substring(start, end)]: both indices are clamped to the string,
    and swapped when the first is the larger. *)
Definition substring2 (s : jsstring) (start stop : Z) : jsstring :=
  let len := Z.of_nat (List.length s) in
  let finalStart := Z.min (Z.max start 0) len in
  let finalEnd := Z.min (Z.max stop 0) len in
  let from := Z.min finalStart finalEnd in
  let to := Z.max finalStart finalEnd in
  firstn (Z.to_nat (to - from)) (skipn (Z.to_nat from) s).

(** The calls the component makes on [RoomListStore.instance] with its
    [searchFilter]. *)
Inductive store_call : Type :=
| addFilter
| removeFilter.

(** The component: its state ([query], [focused]), the [search] of its
    [searchFilter], and the calls it has made on the store so far, the
    oldest first. *)
Record component : Type := mk {
  query : jsstring;
  focused : bool;
  search : jsstring;
  calls : list store_call
}.

Definition componentDidUpdate (prevQuery : jsstring) (c : component)
  : component :=
  if negb (streq prevQuery (query c)) then
    let hadSearch := truthy (trim (search c)) in
    let haveSearch := truthy (trim (query c)) in
    let c' := mk (query c) (focused c) (query c) (calls c) in
    if negb hadSearch && haveSearch then
      mk (query c') (focused c') (search c') (calls c' ++ [addFilter])
    else if hadSearch && negb haveSearch then
      mk (query c') (focused c') (search c') (calls c' ++ [removeFilter])
    else c'
  else c.

(** The commit of one [this.setState({ query })] on its own: React
    writes the state and calls [componentDidUpdate] with the state it
    replaces. This is what a call does when React commits it before the
    next call is made; calls that React commits together are [batch]
    below. *)
Definition setQuery (q : jsstring) (c : component) : component :=
  componentDidUpdate (query c) (mk q (focused c) (search c) (calls c)).

Definition setFocused (f : bool) (c : component) : component :=
  componentDidUpdate (query c) (mk (query c) f (search c) (calls c)).

(** [onChange]: [input] is the value of the input element, or [None]
    when [inputRef.current] is null. *)
Definition onChange (input : option jsstring) (c : component) : component :=
  match input with
  | None => c
  | Some value => setQuery value c
  end.

(** [clearInput]: sets the value of the input element, if there is one,
    to the empty string and calls [onChange]. *)
Definition clearInput (inputMounted : bool) (c : component) : component :=
  if negb inputMounted then c else onChange (Some (lit "")) c.

Definition onFocus (c : component) : component := setFocused true c.
Definition onBlur (c : component) : component := setFocused false c.

Definition appendChar (char : jsstring) (c : component) : component :=
  setQuery (query c ++ char) c.

Definition backspace (c : component) : component :=
  setQuery (substring2 (query c) 0 (Z.of_nat (List.length (query c)) - 1)) c.

(** What can happen to the component, and a run of such events, each of
    them committed before the next is handled. *)
Inductive event : Type :=
| Change (input : option jsstring)
| Clear (inputMounted : bool)
| Focus
| Blur
| AppendChar (char : jsstring)
| Backspace.

Definition step (c : component) (e : event) : component :=
  match e with
  | Change input => onChange input c
  | Clear inputMounted => clearInput inputMounted c
  | Focus => onFocus c
  | Blur => onBlur c
  | AppendChar char => appendChar char c
  | Backspace => backspace c
  end.

Definition run (events : list event) (c : component) : component :=
  fold_left step events c.

(** The object a handler passes to [this.setState]: the fields it names. *)
Record update : Type := mkUpdate {
  new_query : option jsstring;
  new_focused : option bool
}.

(** What the handler of an event passes to [this.setState]; [appendChar]
    and [backspace] compute it from [this.state], which is the state of
    the last commit. [None] when the handler returns without the call. *)
Definition requested (c : component) (e : event) : option update :=
  match e with
  | Change None => None
  | Change (Some value) => Some (mkUpdate (Some value) None)
  | Clear inputMounted =>
      if negb inputMounted then None
      else Some (mkUpdate (Some (lit "")) None)
  | Focus => Some (mkUpdate None (Some true))
  | Blur => Some (mkUpdate None (Some false))
  | AppendChar char => Some (mkUpdate (Some (query c ++ char)) None)
  | Backspace =>
      Some (mkUpdate
              (Some (substring2 (query c) 0
                                (Z.of_nat (List.length (query c)) - 1)))
              None)
  end.

(** React merges the objects of the pending calls into the state in the
    order of the calls: a field named twice takes the later value. *)
Definition merge (state : jsstring * bool) (u : update) : jsstring * bool :=
  (match new_query u with Some q => q | None => fst state end,
   match new_focused u with Some f => f | None => snd state end).

Definition pending (c : component) (events : list event) : list update :=
  flat_map (fun e => match requested c e with
                     | Some u => [u]
                     | None => []
                     end) events.

(** A batch: the handlers of [events] all run on the state of the last
    commit, none of them seeing what another has passed to [setState];
    then React commits the merged state and calls [componentDidUpdate]
    once, with the state from before the batch. Without a [setState]
    call there is no update. *)
Definition batch (c : component) (events : list event) : component :=
  match pending c events with
  | [] => c
  | us =>
      let state := fold_left merge us (query c, focused c) in
      componentDidUpdate (query c)
                         (mk (fst state) (snd state) (search c) (calls c))
  end.

Definition run_batches (batches : list (list event)) (c : component)
  : component :=
  fold_left batch batches c.

(** Replaying the calls on a store that holds the filter or not: [None]
    when the filter is added while held or removed while not. *)
Fixpoint replay (held : bool) (l : list store_call) : option bool :=
  match l with
  | [] => Some held
  | addFilter :: l' => if held then None else replay true l'
  | removeFilter :: l' => if held then replay false l' else None
  end.

End RoomSearch.

(** ** SearchResultTile (src/components/views/rooms/SearchResultTile.tsx) *)

Module SearchResultTile.

(** The string of a loop index (a non-negative integer), as a template
    literal prints it. *)
Definition decimal (j : nat) : jsstring :=
  lit (DecimalString.NilEmpty.string_of_uint (Nat.to_uint j)).

Section Render.

(** What the component takes from elsewhere: the events of matrix-js-sdk
    with their id and timestamp, the string of a number, [haveTileForEvent]
    of EventTile, and the props and settings handed on to every tile as
    they are ([Passthrough]). *)
Variables MatrixEvent Number Passthrough : Type.
Variable getId : MatrixEvent -> jsstring.
Variable getTs : MatrixEvent -> Number.
Variable toString : Number -> jsstring.
Variable haveTileForEvent : MatrixEvent -> bool.

(** [result.context]: the event found, its timeline and the index of the
    event in it. *)
Record SearchResult : Type := {
  getEvent : MatrixEvent;
  getTimeline : list MatrixEvent;
  getOurEventIndex : Z
}.

Record IProps : Type := {
  searchResult : SearchResult;
  searchHighlights : option (list jsstring);
  passthrough : Passthrough
}.

(** The props of an [EventTile] element. *)
Record tile : Type := {
  key : jsstring;
  mxEvent : MatrixEvent;
  contextual : bool;
  highlights : option (list jsstring);
  handedOn : Passthrough
}.

Inductive element : Type :=
| DateSeparator (key : jsstring) (ts : Number)
| EventTile (t : tile).

(** The [for] loop from index [j] on, over what is left of the timeline. *)
Fixpoint loop (props : IProps) (eventId : jsstring) (j : nat)
         (timeline : list MatrixEvent) (ret : list element) : list element :=
  match timeline with
  | [] => ret
  | ev :: timeline' =>
      let contextual :=
        negb (Z.eqb (Z.of_nat j) (getOurEventIndex (searchResult props))) in
      let highlights :=
        if negb contextual then searchHighlights props else None in
      let ret' :=
        if haveTileForEvent ev then
          ret ++ [EventTile
                    {| key := eventId ++ lit "+" ++ decimal j;
                       mxEvent := ev;
                       contextual := contextual;
                       highlights := highlights;
                       handedOn := passthrough props |}]
        else ret in
      loop props eventId (S j) timeline' ret'
  end.

(** [render]: the [data-scroll-tokens] of the list item and its children. *)
Definition render (props : IProps) : jsstring * list element :=
  let result := searchResult props in
  let mxEv := getEvent result in
  let eventId := getId mxEv in
  let ts1 := getTs mxEv in
  let ret := [DateSeparator (toString ts1 ++ lit "-search") ts1] in
  let timeline := getTimeline result in
  (eventId, loop props eventId 0 timeline ret).

(** The key of a child, and the tiles among the children. *)
Definition key_of (e : element) : jsstring :=
  match e with
  | DateSeparator k _ => k
  | EventTile t => key t
  end.

Definition tiles_of (children : list element) : list tile :=
  flat_map (fun e => match e with
                     | DateSeparator _ _ => []
                     | EventTile t => [t]
                     end) children.

End Render.

Arguments getEvent {MatrixEvent} s.
Arguments getTimeline {MatrixEvent} s.
Arguments getOurEventIndex {MatrixEvent} s.
Arguments searchResult {MatrixEvent Passthrough} i.
Arguments searchHighlights {MatrixEvent Passthrough} i.
Arguments passthrough {MatrixEvent Passthrough} i.
Arguments key {MatrixEvent Passthrough} t.
Arguments mxEvent {MatrixEvent Passthrough} t.
Arguments contextual {MatrixEvent Passthrough} t.
Arguments highlights {MatrixEvent Passthrough} t.
Arguments handedOn {MatrixEvent Passthrough} t.
Arguments Build_tile {MatrixEvent Passthrough} key mxEvent contextual highlights handedOn.
Arguments DateSeparator {MatrixEvent Number Passthrough} key ts.
Arguments EventTile {MatrixEvent Number Passthrough} t.
Arguments loop {MatrixEvent Number Passthrough} haveTileForEvent props eventId j timeline ret.
Arguments render {MatrixEvent Number Passthrough} getId getTs toString haveTileForEvent props.
Arguments key_of {MatrixEvent Number Passthrough} e.
Arguments tiles_of {MatrixEvent Number Passthrough} children.

End SearchResultTile.

(** ** VideoFeed (src/unnamed/part_000) *)

Module VideoFeed.

(** [classnames(obj)] of the classnames package, for one object argument:
    the keys whose values are truthy, in order, joined by a space. *)
Definition classnames (obj : list (jsstring * bool)) : jsstring :=
  join (lit " ") (map fst (filter snd obj)).

Section Component.

(** What the component takes from matrix-js-sdk: call feeds with their
    mute flags, member and stream, and [===] on feeds ([same]). *)
Variables CallFeed MatrixCall RoomMember MediaStream : Type.
Variables isAudioMuted isVideoMuted isLocal : CallFeed -> bool.
Variable getMember : CallFeed -> RoomMember.
Variable stream : CallFeed -> MediaStream.
Variable same : CallFeed -> CallFeed -> bool.

Record IProps : Type := {
  call : MatrixCall;
  feed : CallFeed;
  pipMode : option bool;
  hasOnResize : bool;
  primary : bool
}.

Record IState : Type := {
  audioMuted : bool;
  videoMuted : bool
}.

Definition getDerivedStateFromProps (props : IProps) : IState :=
  {| audioMuted := isAudioMuted (feed props);
     videoMuted := isVideoMuted (feed props) |}.

(** What [render] returns: the div with the member's avatar, or the video
    element. *)
Inductive element : Type :=
| AvatarDiv (className : jsstring) (member : RoomMember) (height width : N)
| Video (className : jsstring).

(** [flipVideoHorizontally] is the truthiness of the setting
    'VideoView.flipVideoHorizontally'. *)
Definition render (flipVideoHorizontally : bool) (props : IProps)
           (state : IState) : element :=
  let videoClasses :=
    [(lit "mx_VideoFeed", true);
     (lit "mx_VideoFeed_primary", primary props);
     (lit "mx_VideoFeed_secondary", negb (primary props));
     (lit "mx_VideoFeed_voice", videoMuted state);
     (lit "mx_VideoFeed_video", negb (videoMuted state));
     (lit "mx_VideoFeed_mirror", isLocal (feed props) && flipVideoHorizontally)] in
  if videoMuted state then
    let member := getMember (feed props) in
    let avatarSize :=
      if match pipMode props with Some b => b | None => false end then 76%N
      else if negb (primary props) then 34%N
      else 160%N in
    AvatarDiv (classnames videoClasses) member avatarSize avatarSize
  else Video (classnames videoClasses).

(** What the component does to the world: calls on feeds (event
    emitters), on the video element and on the logger. *)
Inductive effect : Type :=
| removeListener (on : CallFeed)
| addListener (on : CallFeed)
| pause
| set_src_null
| set_muted_true
| set_srcObject (s : MediaStream)
| set_autoplay_true
| play
| logger_info
| removeEventListener_resize.

(** The component at one moment: its props, whether its ref holds the
    video element, and whether [play()] would throw. *)
Record instance : Type := {
  props : IProps;
  hasElement : bool;
  playThrows : bool
}.

Definition playMedia (this : instance) : list effect :=
  if negb (hasElement this) then []
  else [set_muted_true; set_srcObject (stream (feed (props this)));
        set_autoplay_true; play]
       ++ (if playThrows this then [logger_info] else []).

Definition stopMedia (this : instance) : list effect :=
  if negb (hasElement this) then [] else [pause; set_src_null].

(** [oldFeed === newFeed], either of which may be null. *)
Definition same_or_null (a b : option CallFeed) : bool :=
  match a, b with
  | None, None => true
  | Some x, Some y => same x y
  | _, _ => false
  end.

Definition updateFeed (this : instance) (oldFeed newFeed : option CallFeed)
  : list effect :=
  if same_or_null oldFeed newFeed then []
  else
    (match oldFeed with
     | Some _ => removeListener (feed (props this)) :: stopMedia this
     | None => []
     end)
    ++ (match newFeed with
        | Some _ => addListener (feed (props this)) :: playMedia this
        | None => []
        end).

Definition componentDidMount (this : instance) : list effect :=
  updateFeed this None (Some (feed (props this))) ++ playMedia this.

Definition componentWillUnmount (this : instance) : list effect :=
  updateFeed this (Some (feed (props this))) None
  ++ (if hasElement this then [removeEventListener_resize] else []).

Definition componentDidUpdate (prevProps : IProps) (this : instance)
  : list effect :=
  updateFeed this (Some (feed prevProps)) (Some (feed (props this))).

(** [onResize]: whether the resize event is handed to [props.onResize]. *)
Definition onResize (this : instance) : bool :=
  hasOnResize (props this) && negb (isLocal (feed (props this))).

(** A life of the component: mounted, updated any number of times,
    unmounted. *)
Fixpoint updates (prev : instance) (later : list instance) : list effect :=
  match later with
  | [] => []
  | this :: later' =>
      componentDidUpdate (props prev) this ++ updates this later'
  end.

Definition life (first : instance) (later : list instance) : list effect :=
  componentDidMount first ++ updates first later
  ++ componentWillUnmount (last later first).

(** The number of NewStream listeners of the component a feed holds after
    the effects: [addListener] adds one, [removeListener] removes one if
    there is one. *)
Fixpoint listeners (held : nat) (x : CallFeed) (effects : list effect) : nat :=
  match effects with
  | [] => held
  | addListener f :: rest =>
      listeners (if same f x then S held else held) x rest
  | removeListener f :: rest =>
      listeners (if same f x then Nat.pred held else held) x rest
  | _ :: rest => listeners held x rest
  end.

End Component.

Arguments call {CallFeed MatrixCall} i.
Arguments feed {CallFeed MatrixCall} i.
Arguments pipMode {CallFeed MatrixCall} i.
Arguments hasOnResize {CallFeed MatrixCall} i.
Arguments primary {CallFeed MatrixCall} i.
Arguments Build_IProps {CallFeed MatrixCall} call feed pipMode hasOnResize primary.
Arguments AvatarDiv {RoomMember} className member height width.
Arguments Video {RoomMember} className.
Arguments props {CallFeed MatrixCall} i.
Arguments hasElement {CallFeed MatrixCall} i.
Arguments playThrows {CallFeed MatrixCall} i.
Arguments getDerivedStateFromProps {CallFeed MatrixCall} isAudioMuted isVideoMuted props.
Arguments render {CallFeed MatrixCall RoomMember} isLocal getMember flipVideoHorizontally props state.
Arguments life {CallFeed MatrixCall MediaStream} stream same first later.
Arguments updates {CallFeed MatrixCall MediaStream} stream same prev later.
Arguments componentDidMount {CallFeed MatrixCall MediaStream} stream same this.
Arguments componentDidUpdate {CallFeed MatrixCall MediaStream} stream same prevProps this.
Arguments componentWillUnmount {CallFeed MatrixCall MediaStream} stream same this.
Arguments updateFeed {CallFeed MatrixCall MediaStream} stream same this oldFeed newFeed.
Arguments playMedia {CallFeed MatrixCall MediaStream} stream this.
Arguments stopMedia {CallFeed MatrixCall MediaStream} this.
Arguments listeners {CallFeed MediaStream} same held x effects.
Arguments addListener {CallFeed MediaStream} on.
Arguments removeListener {CallFeed MediaStream} on.

End VideoFeed.

(** ** CallViewSidebar (src/components/views/voip/CallViewSidebar.tsx) *)

Module CallViewSidebar.

Section Component.

Variables CallFeed MatrixCall : Type.
Variable isVideoMuted : CallFeed -> bool.
(** [feed.stream.id] *)
Variable streamId : CallFeed -> jsstring.

Record IProps : Type := {
  feeds : list CallFeed;
  call : MatrixCall;
  hideFeedsWithMutedVideo : bool
}.

(** The children of the div "mx_CallViewSidebar": for each feed a
    [VideoFeed] element with its key and props, or [undefined]. *)
Definition render (props : IProps)
  : list (option (jsstring * VideoFeed.IProps CallFeed MatrixCall)) :=
  map (fun feed =>
         if isVideoMuted feed && hideFeedsWithMutedVideo props then None
         else Some (streamId feed,
                    VideoFeed.Build_IProps (call props) feed None false false))
      (feeds props).

End Component.

Arguments feeds {CallFeed MatrixCall} i.
Arguments call {CallFeed MatrixCall} i.
Arguments hideFeedsWithMutedVideo {CallFeed MatrixCall} i.
Arguments render {CallFeed MatrixCall} isVideoMuted streamId props.

End CallViewSidebar.

(** What the sidebar shows: each [VideoFeed] child rendered, with the state
    React derives from its props before rendering. *)
Definition sidebar_rendered {CallFeed MatrixCall RoomMember : Type}
           (isAudioMuted isVideoMuted isLocal : CallFeed -> bool)
           (getMember : CallFeed -> RoomMember)
           (streamId : CallFeed -> jsstring)
           (flipVideoHorizontally : bool)
           (props : CallViewSidebar.IProps CallFeed MatrixCall)
  : list (VideoFeed.element RoomMember) :=
  flat_map
    (fun child =>
       match child with
       | None => []
       | Some (_, p) =>
           [VideoFeed.render isLocal getMember flipVideoHorizontally p
              (VideoFeed.getDerivedStateFromProps isAudioMuted isVideoMuted p)]
       end)
    (CallViewSidebar.render isVideoMuted streamId props).

(** ** The specification's examples, evaluated *)

Example forUser_example :
  forUser (lit "@alice:example.org") = Ok (lit "matrix:u/alice:example.org").
Proof. reflexivity. Qed.

Example forRoom_example :
  forRoom (lit "#room:example.org") [lit "s1"; lit "s2"]
  = Ok (lit "matrix:r/room:example.org?via=s1&via=s2").
Proof. reflexivity. Qed.

Example forEvent_example :
  forEvent (lit "!roomid:example.org") (lit "$event:example.org") []
  = Ok (lit "matrix:roomid/roomid:example.org/e/event:example.org").
Proof. reflexivity. Qed.

Example parse_event_example :
  parsePermalink (lit "matrix:r/room:example.org/e/evt:example.org?via=hs.example")
  = Ok (Event (lit "#room:example.org") (lit "$evt:example.org")
              [lit "hs.example"]).
Proof. reflexivity. Qed.

(** Without a second segment [parts[1]] is [undefined], and the template
    literal prints the word. *)
Example parse_user_no_segment :
  parsePermalink (lit "matrix:u") = Ok (User (lit "@undefined")).
Proof. reflexivity. Qed.

Example parse_room_no_segment :
  parsePermalink (lit "matrix:r") = Throw MalformedRoomPermalink.
Proof. reflexivity. Qed.

Example encodeURIComponent_examples :
  encodeURIComponent (lit "example.org:8448") = Ok (lit "example.org%3A8448")
  /\ encodeURIComponent (lit "a b&c=d/e?f") = Ok (lit "a%20b%26c%3Dd%2Fe%3Ff")
  /\ encodeURIComponent [0xE9%N] = Ok (lit "%C3%A9")
  /\ encodeURIComponent [0x20AC%N] = Ok (lit "%E2%82%AC")
  /\ encodeURIComponent [0xD83D%N; 0xDE00%N] = Ok (lit "%F0%9F%98%80")
  /\ encodeURIComponent [0xD83D%N] = Throw URIError
  /\ encodeURIComponent [0xDE00%N] = Throw URIError.
Proof. repeat split; reflexivity. Qed.

(** ** Basic facts about the built-ins *)

Lemma streq_eq (a b : jsstring) : streq a b = true <-> a = b.
Proof.
  revert b; induction a as [|x a IH]; intros [|y b]; simpl;
    try (split; [discriminate | discriminate]); try tauto.
  rewrite andb_true_iff, N.eqb_eq, IH.
  split; [intros [-> ->]; reflexivity | intros H; inversion H; auto].
Qed.

Lemma streq_neq (a b : jsstring) : a <> b -> streq a b = false.
Proof.
  intros H; destruct (streq a b) eqn:E; [|reflexivity].
  apply streq_eq in E; contradiction.
Qed.

Lemma strict_eq_Some (v : option jsstring) (s : jsstring) :
  strict_eq v s = true <-> v = Some s.
Proof.
  destruct v as [x|]; simpl.
  - rewrite streq_eq; split; [intros ->; reflexivity | intros H; inversion H; auto].
  - split; discriminate.
Qed.

Lemma strict_eq_neq (v : option jsstring) (s : jsstring) :
  v <> Some s -> strict_eq v s = false.
Proof.
  intros H; destruct (strict_eq v s) eqn:E; [|reflexivity].
  apply strict_eq_Some in E; contradiction.
Qed.

Lemma startsWith_app (p s : jsstring) : startsWith (p ++ s) p = true.
Proof.
  induction p as [|c p IH]; simpl; [reflexivity|].
  rewrite N.eqb_refl; exact IH.
Qed.

Lemma startsWith_prefix (s p : jsstring) :
  startsWith s p = true <-> exists t, s = p ++ t.
Proof.
  split.
  - revert s; induction p as [|c p IH]; intros s H; simpl in *.
    + exists s; reflexivity.
    + destruct s as [|d s]; [discriminate|].
      apply andb_true_iff in H as [H1 H2].
      apply N.eqb_eq in H1; subst d.
      destruct (IH _ H2) as [t ->]; exists t; reflexivity.
  - intros [t ->]; apply startsWith_app.
Qed.

Lemma substring_app (p s : jsstring) : substring (p ++ s) (List.length p) = s.
Proof. unfold substring; induction p; simpl; auto. Qed.

Lemma split_re_from_nonempty m k s : split_re_from m k s <> [].
Proof.
  revert k; induction s as [|c s IH]; intros k; simpl; [discriminate|].
  destruct k; [|apply IH].
  destruct (m (c :: s)) as [[|n]|]; try discriminate;
    (destruct (split_re_from m 0 s) eqn:E; [apply IH in E; contradiction|discriminate]).
Qed.

(** Splitting at a separator of one code unit, step by step. *)
Lemma split_cons (sep c : char16) (s : jsstring) :
  split [sep] (c :: s)
  = if N.eqb c sep then [] :: split [sep] s else cons_head c (split [sep] s).
Proof.
  unfold split, split_re; simpl. unfold match_literal at 1; simpl.
  destruct (N.eqb c sep); reflexivity.
Qed.

Lemma split_nonempty sep s : split sep s <> [].
Proof. apply split_re_from_nonempty. Qed.

(** A string without the separator is one piece. *)
Lemma split_absent (sep : char16) (s : jsstring) :
  ~ In sep s -> split [sep] s = [s].
Proof.
  induction s as [|c s IH]; intros H; [reflexivity|].
  rewrite split_cons.
  destruct (N.eqb_spec c sep) as [->|Hne]; [exfalso; apply H; left; reflexivity|].
  rewrite IH; [reflexivity|]. intros Hin; apply H; right; exact Hin.
Qed.

(** The first piece ends at the first separator. *)
Lemma split_app (sep : char16) (a b : jsstring) :
  ~ In sep a -> split [sep] (a ++ sep :: b) = a :: split [sep] b.
Proof.
  induction a as [|c a IH]; intros H; simpl app.
  - rewrite split_cons, N.eqb_refl; reflexivity.
  - rewrite split_cons.
    destruct (N.eqb_spec c sep) as [->|Hne]; [exfalso; apply H; left; reflexivity|].
    rewrite IH; [reflexivity|]. intros Hin; apply H; right; exact Hin.
Qed.

(** Joining the pieces with the separator gives the string back. *)
Lemma join_split (sep : char16) (s : jsstring) :
  join [sep] (split [sep] s) = s.
Proof.
  induction s as [|c s IH]; [reflexivity|].
  rewrite split_cons.
  destruct (N.eqb_spec c sep) as [->|Hne].
  - pose proof (split_nonempty [sep] s) as Hn.
    destruct (split [sep] s) as [|p ps] eqn:E; [contradiction|].
    change (join [sep] ([] :: p :: ps)) with ([] ++ [sep] ++ join [sep] (p :: ps)).
    rewrite IH; reflexivity.
  - pose proof (split_nonempty [sep] s) as Hn.
    destruct (split [sep] s) as [|p ps] eqn:E; [contradiction|].
    simpl cons_head. destruct ps as [|q ps].
    + simpl in *; rewrite IH; reflexivity.
    + change (join [sep] ((c :: p) :: q :: ps))
        with (c :: (p ++ [sep] ++ join [sep] (q :: ps))).
      change (join [sep] (p :: q :: ps))
        with (p ++ [sep] ++ join [sep] (q :: ps)) in IH.
      rewrite IH; reflexivity.
Qed.

(** ** encodeEntity *)

(** C2. encodeEntity chooses the path segment by the first character alone:
    '!' gives "roomid/<rest>", '#' gives "r/<rest>", '@' gives "u/<rest>",
    '$' gives "e/<rest>", whatever the rest is; every string whose first
    character is none of the four, the empty string included, makes it throw
    the error "Cannot encode entity: <entity>" (UnrecognizedSigil). *)
Theorem encodeEntity_by_sigil :
  (forall rest, encodeEntity (lit "!" ++ rest) = Ok (lit "roomid/" ++ rest))
  /\ (forall rest, encodeEntity (lit "#" ++ rest) = Ok (lit "r/" ++ rest))
  /\ (forall rest, encodeEntity (lit "@" ++ rest) = Ok (lit "u/" ++ rest))
  /\ (forall rest, encodeEntity (lit "$" ++ rest) = Ok (lit "e/" ++ rest))
  /\ (forall entity,
        (forall c, hd_error entity = Some c -> ~ In c sigils) ->
        encodeEntity entity = Throw (UnrecognizedSigil entity))
  /\ encodeEntity (lit "") = Throw (UnrecognizedSigil (lit "")).
Proof.
  repeat split; try reflexivity.
  intros entity H. unfold encodeEntity, UnrecognizedSigil.
  destruct entity as [|c rest]; [reflexivity|].
  specialize (H c eq_refl).
  assert (Hc : c <> 33%N /\ c <> 35%N /\ c <> 64%N /\ c <> 36%N).
  { repeat split; intros ->; apply H; vm_compute; tauto. }
  destruct Hc as (H1 & H2 & H3 & H4).
  apply N.eqb_neq in H1, H2, H3, H4.
  unfold index; simpl. rewrite H1, H2, H3, H4. reflexivity.
Qed.

Lemma encodeEntity_by_sigil_witness :
  encodeEntity (lit "room:example.org")
  = Throw (UnrecognizedSigil (lit "room:example.org")).
Proof.
  apply (proj1 (proj2 (proj2 (proj2 (proj2 encodeEntity_by_sigil))))).
  intros c Hc; inversion Hc; subst c. vm_compute.
  intros H; repeat (destruct H as [H|H]; [discriminate H|]); exact H.
Defined.

(** ** isPermalinkHost *)

(** C9. isPermalinkHost answers true exactly for the empty host string, so
    it answers false for every non-empty one. *)
Theorem isPermalinkHost_only_empty :
  (forall testHost, isPermalinkHost testHost = true <-> testHost = lit "")
  /\ (forall testHost, testHost <> lit "" -> isPermalinkHost testHost = false).
Proof.
  split; intros testHost.
  - apply streq_eq.
  - apply streq_neq.
Qed.

Lemma isPermalinkHost_only_empty_witness :
  isPermalinkHost (lit "matrix.to") = false.
Proof.
  apply (proj2 isPermalinkHost_only_empty). discriminate.
Defined.

(** ** parsePermalink: the failures *)

Lemma startsWith_truthy (s p : jsstring) :
  p <> [] -> startsWith s p = true -> truthy s = true.
Proof.
  destruct p; [contradiction|]. destruct s; simpl; [discriminate|reflexivity].
Qed.

(** The steps of parsePermalink after the scheme test, on the text that
    follows "matrix:". *)
Lemma parsePermalink_matrix (url : jsstring) :
  startsWith url (lit "matrix:") = true ->
  parsePermalink url =
    let parts := split (lit "/") (substring url 7) in
    let identifier := nth_error parts 0 in
    let entityNoSigil := nth_error parts 1 in
    if strict_eq identifier (lit "u") then
      Ok (User (lit "@" ++ template entityNoSigil))
    else if strict_eq identifier (lit "r")
            || strict_eq identifier (lit "roomid") then
      let sigil := if strict_eq identifier (lit "r")
                   then lit "#" else lit "!" in
      if Nat.eqb (List.length parts) 2 then
        match entityNoSigil with
        | None => Throw TypeError
        | Some entity =>
            let arr := split (lit "?") entity in
            Ok (Room (sigil ++ template (nth_error arr 0))
                     (parse_via (second_or_empty arr)))
        end
      else if strict_eq (nth_error parts 2) (lit "e") then
        let eventIdAndQuery :=
          if Nat.ltb 3 (List.length parts)
          then join (lit "/") (skipn 3 parts) else lit "" in
        let arr := split (lit "?") eventIdAndQuery in
        Ok (Event (sigil ++ template entityNoSigil)
                  (lit "$" ++ template (nth_error arr 0))
                  (parse_via (second_or_empty arr)))
      else Throw MalformedRoomPermalink
    else Throw UnknownEntityType.
Proof.
  intros H. unfold parsePermalink.
  rewrite H, (startsWith_truthy url (lit "matrix:")); [reflexivity|discriminate|exact H].
Qed.

(** C5. parsePermalink throws "Does not appear to be a permalink"
    (NotAPermalink) if and only if the input does not start with "matrix:";
    so it does for "https://example.org" and for the empty string. *)
Theorem parsePermalink_NotAPermalink_iff :
  (forall fullUrl,
      parsePermalink fullUrl = Throw NotAPermalink
      <-> startsWith fullUrl (lit "matrix:") = false)
  /\ parsePermalink (lit "https://example.org") = Throw NotAPermalink
  /\ parsePermalink (lit "") = Throw NotAPermalink.
Proof.
  split; [|split; reflexivity].
  intros fullUrl. destruct (startsWith fullUrl (lit "matrix:")) eqn:E.
  - split; [|discriminate]. intros H. exfalso.
    rewrite (parsePermalink_matrix _ E) in H. cbv zeta in H.
    repeat match type of H with
           | context [if ?b then _ else _] => destruct b
           | context [match ?x with Some _ => _ | None => _ end] => destruct x
           end; try discriminate H;
      inversion H as [H']; vm_compute in H'; discriminate H'.
  - split; [reflexivity|]. intros _. unfold parsePermalink.
    rewrite E, orb_true_r. reflexivity.
Qed.

(** C6. An input that starts with "matrix:" and whose first "/"-separated
    segment after the prefix is none of "u", "r" and "roomid" makes
    parsePermalink throw "Unknown entity type in permalink"
    (UnknownEntityType). *)
Theorem parsePermalink_UnknownEntityType (fullUrl : jsstring) :
  startsWith fullUrl (lit "matrix:") = true ->
  let identifier := nth_error (split (lit "/") (substring fullUrl 7)) 0 in
  identifier <> Some (lit "u") ->
  identifier <> Some (lit "r") ->
  identifier <> Some (lit "roomid") ->
  parsePermalink fullUrl = Throw UnknownEntityType.
Proof.
  intros H identifier Hu Hr Hroomid.
  rewrite (parsePermalink_matrix _ H). cbv zeta. fold identifier.
  rewrite (strict_eq_neq _ _ Hu), (strict_eq_neq _ _ Hr), (strict_eq_neq _ _ Hroomid).
  reflexivity.
Qed.

Lemma parsePermalink_UnknownEntityType_witness :
  parsePermalink (lit "matrix:x/foo") = Throw UnknownEntityType.
Proof.
  apply (parsePermalink_UnknownEntityType (lit "matrix:x/foo"));
    [reflexivity | vm_compute; discriminate ..].
Defined.

(** C7. When the kind segment is "r" or "roomid", there are three or more
    "/"-separated segments and the third is not "e", parsePermalink throws
    "Faulty room permalink" (MalformedRoomPermalink). *)
Theorem parsePermalink_MalformedRoomPermalink (fullUrl : jsstring) :
  startsWith fullUrl (lit "matrix:") = true ->
  let parts := split (lit "/") (substring fullUrl 7) in
  nth_error parts 0 = Some (lit "r") \/ nth_error parts 0 = Some (lit "roomid") ->
  3 <= List.length parts ->
  nth_error parts 2 <> Some (lit "e") ->
  parsePermalink fullUrl = Throw MalformedRoomPermalink.
Proof.
  intros H parts Hkind Hlen He.
  rewrite (parsePermalink_matrix _ H). cbv zeta. fold parts.
  rewrite (strict_eq_neq _ _ He).
  replace (Nat.eqb (List.length parts) 2) with false
    by (symmetry; apply Nat.eqb_neq; lia).
  destruct Hkind as [-> | ->]; reflexivity.
Qed.

Lemma parsePermalink_MalformedRoomPermalink_witness :
  parsePermalink (lit "matrix:roomid/abc:example.org/x/evt")
  = Throw MalformedRoomPermalink.
Proof.
  apply (parsePermalink_MalformedRoomPermalink
           (lit "matrix:roomid/abc:example.org/x/evt")).
  - reflexivity.
  - right; reflexivity.
  - vm_compute; lia.
  - vm_compute; discriminate.
Defined.

(** ** parsePermalink: the three successful shapes *)

Lemma split_upto_after (sep : char16) (s : jsstring) :
  split [sep] s
  = upto sep s :: (if existsb (N.eqb sep) s then split [sep] (after sep s) else []).
Proof.
  induction s as [|c s IH]; [reflexivity|].
  rewrite split_cons. simpl. rewrite (N.eqb_sym sep c).
  destruct (N.eqb c sep); simpl; [reflexivity|].
  rewrite IH; reflexivity.
Qed.

Lemma split_first (sep : char16) (s : jsstring) :
  nth_error (split [sep] s) 0 = Some (upto sep s).
Proof. rewrite split_upto_after; reflexivity. Qed.

Lemma after_absent (sep : char16) (s : jsstring) :
  existsb (N.eqb sep) s = false -> after sep s = [].
Proof.
  induction s as [|c s IH]; simpl; [reflexivity|].
  rewrite (N.eqb_sym sep c). destruct (N.eqb c sep); simpl; [discriminate|exact IH].
Qed.

Lemma split_second (sep : char16) (s : jsstring) :
  second_or_empty (split [sep] s) = upto sep (after sep s).
Proof.
  unfold second_or_empty. rewrite split_upto_after.
  destruct (existsb (N.eqb sep) s) eqn:E.
  - change (nth_error (upto sep s :: split [sep] (after sep s)) 1)
      with (nth_error (split [sep] (after sep s)) 0).
    rewrite split_first; reflexivity.
  - rewrite (after_absent _ _ E); reflexivity.
Qed.

Lemma upto_absent (sep : char16) (s : jsstring) : ~ In sep s -> upto sep s = s.
Proof.
  induction s as [|c s IH]; intros H; simpl; [reflexivity|].
  destruct (N.eqb_spec c sep) as [->|_]; [exfalso; apply H; left; reflexivity|].
  rewrite IH; [reflexivity|]. intros Hin; apply H; right; exact Hin.
Qed.

Lemma upto_app (sep : char16) (a b : jsstring) :
  ~ In sep a -> upto sep (a ++ sep :: b) = a.
Proof.
  induction a as [|c a IH]; intros H; simpl.
  - rewrite N.eqb_refl; reflexivity.
  - destruct (N.eqb_spec c sep) as [->|_]; [exfalso; apply H; left; reflexivity|].
    rewrite IH; [reflexivity|]. intros Hin; apply H; right; exact Hin.
Qed.

Lemma after_app (sep : char16) (a b : jsstring) :
  ~ In sep a -> after sep (a ++ sep :: b) = b.
Proof.
  induction a as [|c a IH]; intros H; simpl.
  - rewrite N.eqb_refl; reflexivity.
  - destruct (N.eqb_spec c sep) as [->|_]; [exfalso; apply H; left; reflexivity|].
    apply IH. intros Hin; apply H; right; exact Hin.
Qed.

Lemma room_kind_cases (kind sigil : jsstring) :
  In (kind, sigil) room_kinds ->
  (kind = lit "r" /\ sigil = lit "#") \/ (kind = lit "roomid" /\ sigil = lit "!").
Proof.
  intros [H|[H|[]]]; inversion H; subst; [left|right]; split; reflexivity.
Qed.

(** "matrix:u/<rest>": the user id is the segment after "u/". *)
Lemma parse_user (rest : jsstring) :
  parsePermalink (lit "matrix:u/" ++ rest)
  = Ok (User (lit "@" ++ upto slash rest)).
Proof.
  unfold slash.
  change (lit "matrix:u/" ++ rest) with (lit "matrix:" ++ lit "u" ++ 47%N :: rest).
  rewrite parsePermalink_matrix by apply startsWith_app.
  change 7 with (List.length (lit "matrix:")). rewrite substring_app.
  change (lit "/") with [47%N].
  rewrite split_app by (vm_compute; intuition discriminate).
  cbv zeta.
  change (nth_error (lit "u" :: split [47%N] rest) 1)
    with (nth_error (split [47%N] rest) 0).
  rewrite split_first. reflexivity.
Qed.

(** "matrix:<kind>/<entity>" with no further "/": a room. *)
Lemma parse_room (kind sigil entity : jsstring) :
  In (kind, sigil) room_kinds ->
  ~ In slash entity ->
  parsePermalink (lit "matrix:" ++ kind ++ lit "/" ++ entity)
  = Ok (Room (sigil ++ upto qmark entity)
             (parse_via (upto qmark (after qmark entity)))).
Proof.
  unfold slash, qmark; intros Hk Hs.
  rewrite parsePermalink_matrix by apply startsWith_app.
  change 7 with (List.length (lit "matrix:")). rewrite substring_app.
  change (lit "/") with [47%N]. change ([47%N] ++ entity) with (47%N :: entity).
  change (lit "?") with [63%N].
  destruct (room_kind_cases _ _ Hk) as [[-> ->]|[-> ->]];
    (rewrite split_app by (vm_compute; intuition discriminate));
    rewrite (split_absent _ _ Hs); cbv zeta;
    change (nth_error [?a; entity] 1) with (Some entity); cbv beta iota;
    rewrite split_first, split_second; reflexivity.
Qed.

(** "matrix:<kind>/<room>/e/<tail>": an event; the tail may hold "/". *)
Lemma parse_event (kind sigil room tail : jsstring) :
  In (kind, sigil) room_kinds ->
  ~ In slash room ->
  parsePermalink (lit "matrix:" ++ kind ++ lit "/" ++ room ++ lit "/e/" ++ tail)
  = Ok (Event (sigil ++ room) (lit "$" ++ upto qmark tail)
              (parse_via (upto qmark (after qmark tail)))).
Proof.
  unfold slash, qmark; intros Hk Hs.
  rewrite parsePermalink_matrix by apply startsWith_app.
  change 7 with (List.length (lit "matrix:")). rewrite substring_app.
  change (lit "/") with [47%N].
  change ([47%N] ++ room ++ lit "/e/" ++ tail)
    with (47%N :: room ++ 47%N :: lit "e" ++ 47%N :: tail).
  change (lit "?") with [63%N].
  pose proof (split_nonempty [47%N] tail) as Hne.
  pose proof (join_split 47%N tail) as Hj.
  destruct (room_kind_cases _ _ Hk) as [[-> ->]|[-> ->]];
    (rewrite split_app by (vm_compute; intuition discriminate));
    rewrite (split_app _ _ _ Hs);
    (rewrite split_app by (vm_compute; intuition discriminate));
    destruct (split [47%N] tail) as [|p ps]; try contradiction;
    cbv zeta;
    change (skipn 3 (?a :: ?b :: ?c :: p :: ps)) with (p :: ps);
    rewrite Hj, split_first, split_second; reflexivity.
Qed.

(** ** parsePermalink: user permalinks *)

(** C8, as stated, fails: the user id is not the whole remainder after
    "u/" but its first "/"-separated segment. *)
Lemma user_remainder_counterexample :
  parsePermalink (lit "matrix:u/alice/extra:example.org")
  = Ok (User (lit "@alice"))
  /\ ~ (forall rest,
          parsePermalink (lit "matrix:u/" ++ rest) = Ok (User (lit "@" ++ rest))).
Proof.
  split; [reflexivity|].
  intros H. specialize (H (lit "alice/extra:example.org")).
  vm_compute in H. discriminate H.
Qed.

(** C8, amended. For "matrix:u/<rest>" parsePermalink returns the User
    variant whose id is "@" followed by the text of <rest> up to its first
    "/" (all of it when it has none); no query is parsed, so a "?" and what
    follows stay in the id. *)
Theorem parsePermalink_user :
  (forall rest,
      parsePermalink (lit "matrix:u/" ++ rest)
      = Ok (User (lit "@" ++ upto slash rest)))
  /\ (forall userId,
        ~ In slash userId ->
        parsePermalink (lit "matrix:u/" ++ userId)
        = Ok (User (lit "@" ++ userId)))
  /\ parsePermalink (lit "matrix:u/bob:example.org")
     = Ok (User (lit "@bob:example.org"))
  /\ parsePermalink (lit "matrix:u/bob:example.org?via=a")
     = Ok (User (lit "@bob:example.org?via=a")).
Proof.
  split; [exact parse_user|]. split; [|split; reflexivity].
  intros userId H. rewrite parse_user, (upto_absent _ _ H). reflexivity.
Qed.

Lemma parsePermalink_user_witness :
  parsePermalink (lit "matrix:u/" ++ lit "carol:example.org")
  = Ok (User (lit "@" ++ lit "carol:example.org")).
Proof.
  apply (proj1 (proj2 parsePermalink_user)).
  vm_compute. intros H.
  repeat (destruct H as [H|H]; [discriminate H|]); exact H.
Defined.

(** ** parsePermalink: where the query starts and ends *)

(** C4, as stated, fails: with a second "?" in the remainder the query is
    not everything after the first "?". *)
Lemma query_after_first_qmark_counterexample :
  parsePermalink (lit "matrix:r/room:example.org?via=a?via=b")
  = Ok (Room (lit "#room:example.org") [lit "a"])
  /\ parse_via (after qmark (lit "room:example.org?via=a?via=b"))
     = [lit "a?"; lit "b"]
  /\ parsePermalink (lit "matrix:r/" ++ lit "room:example.org?via=a?via=b")
     <> Ok (Room (lit "#" ++ upto qmark (lit "room:example.org?via=a?via=b"))
                 (parse_via (after qmark (lit "room:example.org?via=a?via=b"))))
  /\ parsePermalink (lit "matrix:r/room:example.org/e/evt?via=a?via=b")
     = Ok (Event (lit "#room:example.org") (lit "$evt") [lit "a"]).
Proof.
  repeat split; try reflexivity.
  vm_compute. discriminate.
Qed.

(** C4, amended. In the room branch and in the event branch the remaining
    text is split at every "?": the identifier is the text before the
    first "?", and the query the via candidates are parsed from is the text
    between the first "?" and the second one (up to the end when there is
    no second one); what follows a second "?" is ignored. *)
Theorem parsePermalink_query_extent (kind sigil : jsstring) :
  In (kind, sigil) room_kinds ->
  (forall entity,
      ~ In slash entity ->
      parsePermalink (lit "matrix:" ++ kind ++ lit "/" ++ entity)
      = Ok (Room (sigil ++ upto qmark entity)
                 (parse_via (upto qmark (after qmark entity)))))
  /\ (forall room tail,
        ~ In slash room ->
        parsePermalink
          (lit "matrix:" ++ kind ++ lit "/" ++ room ++ lit "/e/" ++ tail)
        = Ok (Event (sigil ++ room) (lit "$" ++ upto qmark tail)
                    (parse_via (upto qmark (after qmark tail)))))
  /\ (forall id query,
        ~ In qmark id -> ~ In qmark query ->
        upto qmark (id ++ lit "?" ++ query) = id
        /\ upto qmark (after qmark (id ++ lit "?" ++ query)) = query).
Proof.
  intros Hk. split; [|split].
  - intros entity. apply parse_room; exact Hk.
  - intros room tail. apply parse_event; exact Hk.
  - intros id query Hid Hq. unfold qmark in *.
    change (lit "?" ++ query) with (63%N :: query).
    rewrite (upto_app _ _ _ Hid), (after_app _ _ _ Hid), (upto_absent _ _ Hq).
    split; reflexivity.
Qed.

Lemma parsePermalink_query_extent_witness :
  parsePermalink (lit "matrix:" ++ lit "roomid" ++ lit "/" ++ lit "abc?via=a?x")
  = Ok (Room (lit "!" ++ upto qmark (lit "abc?via=a?x"))
             (parse_via (upto qmark (after qmark (lit "abc?via=a?x"))))).
Proof.
  apply (proj1 (parsePermalink_query_extent (lit "roomid") (lit "!")
                  (or_intror (or_introl eq_refl)))).
  vm_compute. intros H.
  repeat (destruct H as [H|H]; [discriminate H|]); exact H.
Defined.

(** ** Splitting the query at [/&?via=/] *)

Lemma split_re_from_skipn m k s :
  split_re_from m k s = split_re m (skipn k s).
Proof.
  revert k; induction s as [|c s IH]; intros [|k]; try reflexivity.
  simpl. apply IH.
Qed.

Lemma split_re_cons m c s :
  split_re m (c :: s)
  = match m (c :: s) with
    | Some (S n) => [] :: split_re m (skipn n s)
    | _ => cons_head c (split_re m s)
    end.
Proof.
  unfold split_re at 1; simpl.
  destruct (m (c :: s)) as [[|n]|]; try reflexivity.
  rewrite split_re_from_skipn; reflexivity.
Qed.

Lemma split_via_amp (rest : jsstring) :
  split_re match_via (lit "&via=" ++ rest) = [] :: split_re match_via rest.
Proof.
  change (lit "&via=" ++ rest) with (38%N :: lit "via=" ++ rest).
  rewrite split_re_cons. reflexivity.
Qed.

Lemma split_via_bare (rest : jsstring) :
  split_re match_via (lit "via=" ++ rest) = [] :: split_re match_via rest.
Proof.
  change (lit "via=" ++ rest) with (118%N :: lit "ia=" ++ rest).
  rewrite split_re_cons. reflexivity.
Qed.

Lemma split_via_none (c : char16) (s : jsstring) :
  match_via (c :: s) = None ->
  split_re match_via (c :: s) = cons_head c (split_re match_via s).
Proof. intros H. rewrite split_re_cons, H. reflexivity. Qed.

Lemma weave_cons_head c pieces seps :
  pieces <> [] ->
  weave (cons_head c pieces) seps = c :: weave pieces seps.
Proof.
  destruct pieces as [|p ps]; [contradiction|]. intros _.
  destruct seps; reflexivity.
Qed.

Lemma length_cons_head c (pieces : list jsstring) :
  pieces <> [] -> List.length (cons_head c pieces) = List.length pieces.
Proof. destruct pieces; [contradiction|reflexivity]. Qed.

(** Nothing of the query is lost in the split but the matched separators:
    the pieces, woven with them, give the query back. *)
Lemma split_via_weave (query : jsstring) :
  exists seps,
    Forall via_separator seps
    /\ List.length (split_re match_via query) = S (List.length seps)
    /\ weave (split_re match_via query) seps = query.
Proof.
  remember (List.length query) as n eqn:Hn.
  assert (Hle : List.length query <= n) by lia. clear Hn.
  revert query Hle; induction n as [|n IH]; intros query Hle.
  - destruct query; [|simpl in Hle; lia].
    exists []; repeat split; constructor.
  - destruct query as [|c s]; [exists []; repeat split; constructor|].
    simpl in Hle.
    destruct (startsWith (c :: s) (lit "&via=")) eqn:E5.
    + apply startsWith_prefix in E5 as [t Ht]. rewrite Ht, split_via_amp.
      assert (Hlen : List.length t <= n).
      { apply (f_equal (@List.length N)) in Ht. simpl in Ht. lia. }
      destruct (IH t Hlen) as (seps & Hs & Hl & Hw).
      exists (lit "&via=" :: seps). split; [|split].
      * constructor; [left; reflexivity|exact Hs].
      * simpl; rewrite Hl; reflexivity.
      * change (weave ([] :: split_re match_via t) (lit "&via=" :: seps))
          with (lit "&via=" ++ weave (split_re match_via t) seps).
        rewrite Hw; reflexivity.
    + destruct (startsWith (c :: s) (lit "via=")) eqn:E4.
      * apply startsWith_prefix in E4 as [t Ht]. rewrite Ht, split_via_bare.
        assert (Hlen : List.length t <= n).
        { apply (f_equal (@List.length N)) in Ht. simpl in Ht. lia. }
        destruct (IH t Hlen) as (seps & Hs & Hl & Hw).
        exists (lit "via=" :: seps). split; [|split].
        -- constructor; [right; reflexivity|exact Hs].
        -- simpl; rewrite Hl; reflexivity.
        -- change (weave ([] :: split_re match_via t) (lit "via=" :: seps))
             with (lit "via=" ++ weave (split_re match_via t) seps).
           rewrite Hw; reflexivity.
      * assert (Hm : match_via (c :: s) = None)
          by (unfold match_via; rewrite E5, E4; reflexivity).
        rewrite (split_via_none _ _ Hm).
        assert (Hlen : List.length s <= n) by lia.
        destruct (IH s Hlen) as (seps & Hs & Hl & Hw).
        assert (Hne : split_re match_via s <> [])
          by apply split_re_from_nonempty.
        exists seps. split; [exact Hs|split].
        -- rewrite (length_cons_head _ _ Hne); exact Hl.
        -- rewrite (weave_cons_head _ _ _ Hne), Hw; reflexivity.
Qed.

(** A text of plain code units, at the end of the query or in front of
    "&via=", holds no match. *)
Lemma match_via_plain (c : char16) (e t : jsstring) :
  forallb plain (c :: e) = true ->
  (t = [] \/ exists rest, t = lit "&via=" ++ rest) ->
  match_via (c :: e ++ t) = None.
Proof.
  intros Hp Ht. unfold match_via.
  simpl in Hp. apply andb_true_iff in Hp as [Hc He].
  unfold plain in Hc. apply andb_true_iff in Hc as [Hc1 Hc2].
  apply negb_true_iff in Hc1, Hc2.
  assert (Hamp : startsWith (c :: e ++ t) (lit "&via=") = false)
    by (simpl; rewrite Hc1; reflexivity).
  rewrite Hamp.
  assert (Hbare : startsWith (c :: e ++ t) (lit "via=") = false).
  { destruct e as [|c1 [|c2 [|c3 e]]]; simpl in He;
      repeat match type of He with
             | _ && _ = true => apply andb_true_iff in He as [?H He]
             end;
      repeat match goal with
             | H : plain _ = true |- _ =>
                 unfold plain in H; apply andb_true_iff in H as [?H ?H]
             | H : negb _ = true |- _ => apply negb_true_iff in H
             end.
    4: { simpl.
         match goal with H : N.eqb c3 61 = false |- _ => rewrite H end.
         rewrite !andb_false_r. reflexivity. }
    all: destruct Ht as [->|[rest ->]]; simpl; rewrite ?andb_false_r; reflexivity. }
  rewrite Hbare. reflexivity.
Qed.

Lemma prepend_cons c e ps :
  cons_head c (prepend e ps) = prepend (c :: e) ps.
Proof. destruct ps; reflexivity. Qed.

Lemma split_via_plain (e t : jsstring) :
  forallb plain e = true ->
  (t = [] \/ exists rest, t = lit "&via=" ++ rest) ->
  split_re match_via (e ++ t) = prepend e (split_re match_via t).
Proof.
  intros Hp Ht. induction e as [|c e IH].
  - simpl. pose proof (split_re_from_nonempty match_via 0 t) as Hne.
    unfold split_re. destruct (split_re_from match_via 0 t); [contradiction|reflexivity].
  - simpl app. rewrite (split_via_none _ _ (match_via_plain _ _ _ Hp Ht)).
    rewrite IH; [apply prepend_cons|].
    simpl in Hp. apply andb_true_iff in Hp as [_ Hp]. exact Hp.
Qed.

(** The split gives back the texts that were joined with "&via=", when
    they are plain. *)
Lemma split_via_join (es : list jsstring) :
  Forall (fun e => forallb plain e = true) es ->
  es <> [] ->
  split_re match_via (join (lit "&via=") es) = es.
Proof.
  induction es as [|e es IH]; intros Hp Hne; [contradiction|].
  inversion Hp as [|? ? He Hes]; subst.
  destruct es as [|e2 es].
  - simpl join. rewrite <- (app_nil_r e) at 1.
    rewrite (split_via_plain _ _ He) by (left; reflexivity).
    simpl. rewrite app_nil_r. reflexivity.
  - change (join (lit "&via=") (e :: e2 :: es))
      with (e ++ lit "&via=" ++ join (lit "&via=") (e2 :: es)).
    rewrite (split_via_plain _ _ He) by (right; eexists; reflexivity).
    rewrite split_via_amp, IH by (assumption || discriminate).
    simpl. rewrite app_nil_r. reflexivity.
Qed.

Lemma not_in_app (c : char16) (a b : jsstring) :
  ~ In c a -> ~ In c b -> ~ In c (a ++ b).
Proof. intros Ha Hb H. apply in_app_or in H as [H|H]; contradiction. Qed.

(** C10, as stated, fails: query text that is no via value is discarded
    when it stands after a second "?". *)
Lemma query_fragments_counterexample :
  parsePermalink (lit "matrix:r/room:example.org?foo=1?bar=2&via=a")
  = Ok (Room (lit "#room:example.org") [lit "foo=1"])
  /\ filter truthy (split_re match_via (lit "foo=1?bar=2&via=a"))
     = [lit "foo=1?bar=2"; lit "a"]
  /\ ~ (forall roomId query,
          ~ In slash roomId -> ~ In qmark roomId -> ~ In slash query ->
          parsePermalink (lit "matrix:r/" ++ roomId ++ lit "?" ++ query)
          = Ok (Room (lit "#" ++ roomId)
                     (filter truthy (split_re match_via query)))).
Proof.
  split; [reflexivity|]. split; [reflexivity|].
  intros H.
  specialize (H (lit "room:example.org") (lit "foo=1?bar=2&via=a")).
  assert (E : parsePermalink
                (lit "matrix:r/" ++ lit "room:example.org" ++ lit "?"
                   ++ lit "foo=1?bar=2&via=a")
              = Ok (Room (lit "#" ++ lit "room:example.org")
                         (filter truthy
                            (split_re match_via (lit "foo=1?bar=2&via=a"))))).
  { apply H; vm_compute; intros Hin;
      repeat (destruct Hin as [Hin|Hin]; [discriminate Hin|]); exact Hin. }
  vm_compute in E. discriminate E.
Qed.

(** C10, amended. In a room or event permalink the query, which is the
    text after the first "?" up to a second "?" if there is one, is split
    at the pattern optional "&" then "via=", and every non-empty piece of
    it is returned as a server candidate, as it stands: text there that is
    no via value is kept (the pieces and the matched separators make up
    all of it), and nothing is percent-decoded. What follows a second "?"
    is dropped. *)
Theorem parsePermalink_query_fragments (kind sigil : jsstring) :
  In (kind, sigil) room_kinds ->
  (forall roomId query,
      ~ In slash roomId -> ~ In qmark roomId -> ~ In slash query ->
      parsePermalink
        (lit "matrix:" ++ kind ++ lit "/" ++ roomId ++ lit "?" ++ query)
      = Ok (Room (sigil ++ roomId)
                 (filter truthy (split_re match_via (upto qmark query)))))
  /\ (forall room eventId query,
        ~ In slash room -> ~ In qmark eventId ->
        parsePermalink
          (lit "matrix:" ++ kind ++ lit "/" ++ room ++ lit "/e/"
             ++ eventId ++ lit "?" ++ query)
        = Ok (Event (sigil ++ room) (lit "$" ++ eventId)
                    (filter truthy (split_re match_via (upto qmark query)))))
  /\ (forall query, ~ In qmark query -> upto qmark query = query)
  /\ (forall query,
        exists seps,
          Forall via_separator seps
          /\ List.length (split_re match_via query) = S (List.length seps)
          /\ weave (split_re match_via query) seps = query)
  /\ parsePermalink (lit "matrix:r/room:example.org?foo=1&via=a")
     = Ok (Room (lit "#room:example.org") [lit "foo=1"; lit "a"])
  /\ parsePermalink (lit "matrix:r/room:example.org?via=a%20b&via=%5B%3A%3A1%5D")
     = Ok (Room (lit "#room:example.org") [lit "a%20b"; lit "%5B%3A%3A1%5D"])
  /\ parsePermalink (lit "matrix:roomid/abc/e/evt?lang=en&via=hs.example")
     = Ok (Event (lit "!abc") (lit "$evt") [lit "lang=en"; lit "hs.example"])
  /\ parsePermalink (lit "matrix:r/room:example.org?foo=1&via=a?bar=2&via=b")
     = Ok (Room (lit "#room:example.org") [lit "foo=1"; lit "a"]).
Proof.
  intros Hk.
  split; [|split; [|split; [|split; [|repeat split; reflexivity]]]].
  - intros roomId query Hs1 Hq1 Hs2.
    rewrite (parse_room kind sigil) by
      (first [exact Hk
             | apply not_in_app; [exact Hs1|];
               intros [H|H]; [discriminate H|contradiction]]).
    unfold qmark in *. change (lit "?" ++ query) with (63%N :: query).
    rewrite (upto_app _ _ _ Hq1), (after_app _ _ _ Hq1).
    reflexivity.
  - intros room eventId query Hs Hq1.
    rewrite (parse_event kind sigil) by assumption.
    unfold qmark in *. change (lit "?" ++ query) with (63%N :: query).
    rewrite (upto_app _ _ _ Hq1), (after_app _ _ _ Hq1).
    reflexivity.
  - intros query Hq. apply upto_absent. exact Hq.
  - exact split_via_weave.
Qed.

Lemma parsePermalink_query_fragments_witness :
  parsePermalink
    (lit "matrix:" ++ lit "r" ++ lit "/" ++ lit "room:example.org"
       ++ lit "?" ++ lit "foo=1&via=a&bar?baz&via=b")
  = Ok (Room (lit "#" ++ lit "room:example.org")
             (filter truthy
                (split_re match_via
                   (upto qmark (lit "foo=1&via=a&bar?baz&via=b"))))).
Proof.
  apply (proj1 (parsePermalink_query_fragments (lit "r") (lit "#")
                  (or_introl eq_refl)));
    vm_compute; intros H;
    repeat (destruct H as [H|H]; [discriminate H|]); exact H.
Defined.

(** ** encodeURIComponent *)

(** Induction along the cases of encodeURIComponent. *)
Lemma encodeURIComponent_cases (P : jsstring -> result jsstring -> Prop) :
  P [] (Ok []) ->
  (forall c rest,
      unescaped c = true ->
      P rest (encodeURIComponent rest) ->
      P (c :: rest) (bind (encodeURIComponent rest) (fun r => Ok (c :: r)))) ->
  (forall c rest,
      unescaped c = false -> is_trail c = true ->
      P (c :: rest) (Throw URIError)) ->
  (forall c t rest,
      unescaped c = false -> is_trail c = false -> is_lead c = true ->
      is_trail t = true ->
      P rest (encodeURIComponent rest) ->
      P (c :: t :: rest)
        (bind (encodeURIComponent rest)
              (fun r => Ok (escape (pair_code_point c t) ++ r)))) ->
  (forall c t rest,
      unescaped c = false -> is_trail c = false -> is_lead c = true ->
      is_trail t = false ->
      P (c :: t :: rest) (Throw URIError)) ->
  (forall c,
      unescaped c = false -> is_trail c = false -> is_lead c = true ->
      P [c] (Throw URIError)) ->
  (forall c rest,
      unescaped c = false -> is_trail c = false -> is_lead c = false ->
      P rest (encodeURIComponent rest) ->
      P (c :: rest)
        (bind (encodeURIComponent rest) (fun r => Ok (escape c ++ r)))) ->
  forall s, P s (encodeURIComponent s).
Proof.
  intros Hnil Hun Htrail Hpair Hnopair Hlone Hesc s.
  remember (List.length s) as n eqn:Hn.
  assert (Hle : List.length s <= n) by lia. clear Hn.
  revert s Hle; induction n as [|n IH]; intros s Hle.
  - destruct s; [exact Hnil|simpl in Hle; lia].
  - destruct s as [|c rest]; [exact Hnil|]. simpl in Hle.
    cbn [encodeURIComponent].
    destruct (unescaped c) eqn:Eu; [apply Hun; [exact Eu|apply IH; lia]|].
    destruct (is_trail c) eqn:Et; [apply Htrail; assumption|].
    destruct (is_lead c) eqn:El; [|apply Hesc; try assumption; apply IH; lia].
    destruct rest as [|t rest]; [apply Hlone; assumption|].
    destruct (is_trail t) eqn:Et'; [|apply Hnopair; assumption].
    apply Hpair; try assumption. apply IH. simpl in Hle. lia.
Qed.

(** A text of unescaped characters is left as it is. *)
Lemma encodeURIComponent_unescaped (s : jsstring) :
  forallb unescaped s = true -> encodeURIComponent s = Ok s.
Proof.
  induction s as [|c s IH]; [reflexivity|]. simpl. intros H.
  apply andb_true_iff in H as [Hc Hs]. rewrite Hc, (IH Hs). reflexivity.
Qed.

Lemma utf8_nonempty (cp : N) : utf8 cp <> [].
Proof.
  unfold utf8.
  destruct (N.ltb cp 128); [discriminate|].
  destruct (N.ltb cp 2048); [discriminate|].
  destruct (N.ltb cp 65536); discriminate.
Qed.

Lemma escape_length (cp : N) : 3 <= List.length (escape cp).
Proof.
  unfold escape. pose proof (utf8_nonempty cp) as H.
  destruct (utf8 cp) as [|b bs]; [contradiction|].
  simpl. lia.
Qed.

Lemma bind_Ok {A B} (m : result A) (k : A -> result B) (b : B) :
  bind m k = Ok b -> exists a, m = Ok a /\ k a = Ok b.
Proof. destruct m as [a|e]; simpl; [eauto|discriminate]. Qed.

(** Encoding never shortens. *)
Lemma encodeURIComponent_length (s e : jsstring) :
  encodeURIComponent s = Ok e -> List.length s <= List.length e.
Proof.
  revert e. pattern s, (encodeURIComponent s).
  apply encodeURIComponent_cases; clear s.
  - intros e H; inversion H; subst; simpl; lia.
  - intros c rest _ IH e H. apply bind_Ok in H as (r & Hr & H).
    inversion H; subst. specialize (IH _ Hr). simpl; lia.
  - discriminate.
  - intros c t rest _ _ _ _ IH e H. apply bind_Ok in H as (r & Hr & H).
    inversion H; subst. specialize (IH _ Hr).
    pose proof (escape_length (pair_code_point c t)).
    rewrite length_app. simpl; lia.
  - discriminate.
  - discriminate.
  - intros c rest _ _ _ IH e H. apply bind_Ok in H as (r & Hr & H).
    inversion H; subst. specialize (IH _ Hr).
    pose proof (escape_length c).
    rewrite length_app. simpl; lia.
Qed.

(** Only a text of unescaped characters is left as it is. *)
Lemma encodeURIComponent_fixed (s : jsstring) :
  encodeURIComponent s = Ok s -> forallb unescaped s = true.
Proof.
  pattern s, (encodeURIComponent s).
  apply encodeURIComponent_cases; clear s.
  - reflexivity.
  - intros c rest Hc IH H. apply bind_Ok in H as (r & Hr & H).
    inversion H; subst. simpl. rewrite Hc, (IH Hr). reflexivity.
  - discriminate.
  - intros c t rest _ _ _ _ _ H. exfalso.
    apply bind_Ok in H as (r & Hr & H). inversion H as [H'].
    apply encodeURIComponent_length in Hr.
    apply (f_equal (@List.length N)) in H'.
    pose proof (escape_length (pair_code_point c t)).
    rewrite length_app in H'. simpl in H'. lia.
  - discriminate.
  - discriminate.
  - intros c rest _ _ _ _ H. exfalso.
    apply bind_Ok in H as (r & Hr & H). inversion H as [H'].
    apply encodeURIComponent_length in Hr.
    apply (f_equal (@List.length N)) in H'.
    pose proof (escape_length c).
    rewrite length_app in H'. simpl in H'. lia.
Qed.

(** The only error is URIError, and it is raised exactly on ill-formed
    UTF-16. *)
Lemma encodeURIComponent_well_formed (s : jsstring) :
  (well_formed s = true -> exists e, encodeURIComponent s = Ok e)
  /\ (well_formed s = false -> encodeURIComponent s = Throw URIError).
Proof.
  pattern s, (encodeURIComponent s).
  apply encodeURIComponent_cases; clear s.
  - split; [eauto|discriminate].
  - intros c rest Hc [IH1 IH2].
    assert (Hw : well_formed (c :: rest) = well_formed rest).
    { simpl. destruct (is_trail c) eqn:Et.
      - exfalso. revert Hc Et. unfold unescaped, is_trail, between. simpl.
        rewrite !orb_false_r, !orb_true_iff, !andb_true_iff, !N.leb_le, !N.eqb_eq.
        lia.
      - destruct (is_lead c) eqn:El; [|reflexivity].
        exfalso. revert Hc El. unfold unescaped, is_lead, between. simpl.
        rewrite !orb_false_r, !orb_true_iff, !andb_true_iff, !N.leb_le, !N.eqb_eq.
        lia. }
    rewrite Hw. split; intros H.
    + destruct (IH1 H) as [e ->]. simpl. eauto.
    + rewrite (IH2 H). reflexivity.
  - intros c rest _ Ht. simpl. rewrite Ht. split; [discriminate|reflexivity].
  - intros c t rest _ Hc Hl Ht [IH1 IH2]. simpl. rewrite Hc, Hl, Ht. simpl.
    split; intros H.
    + destruct (IH1 H) as [e ->]. simpl. eauto.
    + rewrite (IH2 H). reflexivity.
  - intros c t rest _ Hc Hl Ht. simpl. rewrite Hc, Hl, Ht.
    split; [discriminate|reflexivity].
  - intros c _ Hc Hl. simpl. rewrite Hc, Hl. split; [discriminate|reflexivity].
  - intros c rest _ Hc Hl [IH1 IH2]. simpl. rewrite Hc, Hl.
    split; intros H.
    + destruct (IH1 H) as [e ->]. simpl. eauto.
    + rewrite (IH2 H). reflexivity.
Qed.

Lemma unescaped_inert (c : char16) : unescaped c = true -> inert c = true.
Proof.
  intros H. unfold inert.
  destruct (N.eqb_spec c 38) as [->|_]; [discriminate H|].
  destruct (N.eqb_spec c 61) as [->|_]; [discriminate H|].
  destruct (N.eqb_spec c 47) as [->|_]; [discriminate H|].
  destruct (N.eqb_spec c 63) as [->|_]; [discriminate H|].
  reflexivity.
Qed.

Lemma hexdigit_inert (n : N) : inert (hexdigit n) = true.
Proof.
  unfold inert, hexdigit.
  destruct (N.ltb_spec n 10);
    rewrite !andb_true_iff, !negb_true_iff, !N.eqb_neq; lia.
Qed.

Lemma escape_inert (cp : N) : forallb inert (escape cp) = true.
Proof.
  unfold escape. induction (utf8 cp) as [|b bs IH]; [reflexivity|].
  simpl. rewrite !hexdigit_inert, IH. reflexivity.
Qed.

(** The characters the parser gives a meaning to never come out of
    encodeURIComponent. *)
Lemma encodeURIComponent_inert (s e : jsstring) :
  encodeURIComponent s = Ok e -> forallb inert e = true.
Proof.
  revert e. pattern s, (encodeURIComponent s).
  apply encodeURIComponent_cases; clear s; try discriminate.
  - intros e H; inversion H; reflexivity.
  - intros c rest Hc IH e H. apply bind_Ok in H as (r & Hr & H).
    inversion H; subst. simpl. rewrite (unescaped_inert _ Hc), (IH _ Hr).
    reflexivity.
  - intros c t rest _ _ _ _ IH e H. apply bind_Ok in H as (r & Hr & H).
    inversion H; subst. rewrite forallb_app, escape_inert, (IH _ Hr).
    reflexivity.
  - intros c rest _ _ _ IH e H. apply bind_Ok in H as (r & Hr & H).
    inversion H; subst. rewrite forallb_app, escape_inert, (IH _ Hr).
    reflexivity.
Qed.

Lemma inert_plain (e : jsstring) :
  forallb inert e = true -> forallb plain e = true.
Proof.
  induction e as [|c e IH]; [reflexivity|]. simpl. intros H.
  apply andb_true_iff in H as [Hc He]. rewrite (IH He), andb_true_r.
  unfold inert in Hc. unfold plain.
  apply andb_true_iff in Hc as [Hc _]. apply andb_true_iff in Hc as [Hc _].
  exact Hc.
Qed.

Lemma inert_not_in (c : char16) (e : jsstring) :
  inert c = false -> forallb inert e = true -> ~ In c e.
Proof.
  intros Hc He Hin. rewrite forallb_forall in He.
  rewrite (He _ Hin) in Hc. discriminate.
Qed.

(** *** The escapes are made of "%" and hexadecimal digits *)

Lemma hexdigit_unescaped (n : N) : (n < 16)%N -> unescaped (hexdigit n) = true.
Proof.
  intros H. unfold unescaped, hexdigit, between.
  destruct (N.ltb_spec n 10).
  - assert (H1 : (48 <=? 48 + n)%N = true) by (apply N.leb_le; lia).
    assert (H2 : (48 + n <=? 57)%N = true) by (apply N.leb_le; lia).
    rewrite H1, H2. simpl. rewrite !orb_true_r. reflexivity.
  - assert (H1 : (65 <=? 55 + n)%N = true) by (apply N.leb_le; lia).
    assert (H2 : (55 + n <=? 90)%N = true) by (apply N.leb_le; lia).
    rewrite H1, H2. reflexivity.
Qed.

Lemma shiftr_bound (a n k : N) :
  (a < 2 ^ (n + k))%N -> (N.shiftr a n < 2 ^ k)%N.
Proof.
  intros H. rewrite N.shiftr_div_pow2.
  apply N.Div0.div_lt_upper_bound. rewrite <- N.pow_add_r. exact H.
Qed.

Lemma land_bound (a n : N) : (N.land a (N.ones n) < 2 ^ n)%N.
Proof.
  rewrite N.land_ones. apply N.mod_upper_bound.
  apply N.pow_nonzero. discriminate.
Qed.

Lemma log2_bound (a n : N) : (a < 2 ^ n)%N -> (0 < n)%N -> (N.log2 a < n)%N.
Proof.
  intros Ha Hn. destruct (N.eq_dec a 0) as [->|Hz]; [exact Hn|].
  apply N.log2_lt_pow2; [lia|exact Ha].
Qed.

Lemma lor_bound (a b n : N) :
  (a < 2 ^ n)%N -> (b < 2 ^ n)%N -> (0 < n)%N -> (N.lor a b < 2 ^ n)%N.
Proof.
  intros Ha Hb Hn.
  destruct (N.eq_dec (N.lor a b) 0) as [->|Hz].
  - apply N.neq_0_lt_0, N.pow_nonzero. discriminate.
  - apply N.log2_lt_pow2; [lia|].
    rewrite N.log2_lor. apply N.max_lub_lt; apply log2_bound; assumption.
Qed.

Lemma percent_safe (b : N) : (b < 256)%N -> forallb uri_safe (percent b) = true.
Proof.
  intros H. unfold percent, uri_safe. simpl.
  rewrite !hexdigit_unescaped; [reflexivity| |].
  - change 15%N with (N.ones 4). apply (land_bound b 4).
  - apply (shiftr_bound b 4 4). exact H.
Qed.

Lemma continuation_byte (x : N) : (N.lor 128 (N.land x 63) < 256)%N.
Proof.
  apply (lor_bound 128 _ 8); [reflexivity| |reflexivity].
  change 63%N with (N.ones 6).
  apply N.lt_trans with (2 ^ 6)%N; [apply land_bound|reflexivity].
Qed.

Lemma leading_byte (mark cp n k : N) :
  (mark < 256)%N -> (cp < 2 ^ (n + k))%N -> (k <= 8)%N ->
  (N.lor mark (N.shiftr cp n) < 256)%N.
Proof.
  intros Hm Hcp Hk. apply (lor_bound mark _ 8); [exact Hm| |reflexivity].
  apply N.lt_le_trans with (2 ^ k)%N; [apply shiftr_bound; exact Hcp|].
  apply N.pow_le_mono_r; [discriminate|exact Hk].
Qed.

Lemma utf8_bytes (cp : N) :
  (cp < 2 ^ 21)%N -> Forall (fun b => (b < 256)%N) (utf8 cp).
Proof.
  intros H. unfold utf8.
  destruct (N.ltb_spec cp 128); [repeat constructor; lia|].
  destruct (N.ltb_spec cp 2048).
  { repeat constructor; [|apply continuation_byte].
    apply (leading_byte 192 cp 6 5); [reflexivity|exact H1|discriminate]. }
  destruct (N.ltb_spec cp 65536).
  { repeat constructor; try apply continuation_byte.
    apply (leading_byte 224 cp 12 4); [reflexivity|exact H2|discriminate]. }
  repeat constructor; try apply continuation_byte.
  apply (leading_byte 240 cp 18 3); [reflexivity|exact H|discriminate].
Qed.

Lemma escape_safe (cp : N) :
  (cp < 2 ^ 21)%N -> forallb uri_safe (escape cp) = true.
Proof.
  intros H. unfold escape. pose proof (utf8_bytes cp H) as Hb.
  induction Hb as [|b bs Hb _ IH]; [reflexivity|].
  cbn [flat_map]. rewrite forallb_app, (percent_safe b Hb), IH. reflexivity.
Qed.

Lemma pair_code_point_bound (hi lo : char16) :
  is_lead hi = true -> is_trail lo = true ->
  (pair_code_point hi lo < 2 ^ 21)%N.
Proof.
  unfold is_lead, is_trail, between, pair_code_point.
  rewrite !andb_true_iff, !N.leb_le. intros [H1 H2] [H3 H4].
  change (2 ^ 21)%N with 2097152%N. lia.
Qed.

(** The encoding of a string of code units is safe in a URI query: it is
    made of unescaped characters and "%" only. *)
Lemma encodeURIComponent_safe (s e : jsstring) :
  Forall code_unit s ->
  encodeURIComponent s = Ok e -> forallb uri_safe e = true.
Proof.
  revert e. pattern s, (encodeURIComponent s).
  apply encodeURIComponent_cases; clear s; try discriminate.
  - intros e _ H; inversion H; reflexivity.
  - intros c rest Hc IH e Hu H. apply bind_Ok in H as (r & Hr & H).
    inversion H; subst. inversion Hu; subst.
    simpl. unfold uri_safe at 1. rewrite Hc, (IH _ H3 Hr). reflexivity.
  - intros c t rest _ _ Hl Ht IH e Hu H. apply bind_Ok in H as (r & Hr & H).
    inversion H; subst. inversion Hu as [|? ? _ Hu']; subst.
    inversion Hu' as [|? ? _ Hu'']; subst.
    rewrite forallb_app, (IH _ Hu'' Hr), andb_true_r.
    apply escape_safe, pair_code_point_bound; assumption.
  - intros c rest _ _ _ IH e Hu H. apply bind_Ok in H as (r & Hr & H).
    inversion H; subst. inversion Hu as [|? ? Hc Hu']; subst.
    rewrite forallb_app, (IH _ Hu' Hr), andb_true_r.
    apply escape_safe. unfold code_unit in Hc.
    change (2 ^ 21)%N with 2097152%N. lia.
Qed.

(** ** encodeServerCandidates *)

Lemma map_throwing_Forall2 {A B} (f : A -> result B) (l : list A) (ys : list B) :
  map_throwing f l = Ok ys <-> Forall2 (fun x y => f x = Ok y) l ys.
Proof.
  revert ys; induction l as [|x l IH]; intros ys; simpl.
  - split; intros H; inversion H; subst; [constructor|reflexivity].
  - split; intros H.
    + apply bind_Ok in H as (y & Hy & H). apply bind_Ok in H as (ys' & Hys & H).
      inversion H; subst. constructor; [exact Hy|apply IH; exact Hys].
    + inversion H as [|? y ? ys' Hy Hys]; subst.
      rewrite Hy. simpl. apply IH in Hys. rewrite Hys. reflexivity.
Qed.

Lemma map_throwing_total {A B} (f : A -> result B) (l : list A) :
  Forall (fun x => exists y, f x = Ok y) l -> exists ys, map_throwing f l = Ok ys.
Proof.
  induction 1 as [|x l [y Hy] _ [ys Hys]]; simpl; [eauto|].
  rewrite Hy; simpl. rewrite Hys; simpl. eauto.
Qed.

Lemma map_throwing_encode_error (cs : list jsstring) :
  Exists (fun c => well_formed c = false) cs ->
  map_throwing encodeURIComponent cs = Throw URIError.
Proof.
  induction cs as [|c cs IH]; intros H; [inversion H|]. simpl.
  destruct (well_formed c) eqn:Ew.
  - destruct (proj1 (encodeURIComponent_well_formed c) Ew) as [e ->]. simpl.
    inversion H as [? ? Hc|? ? Hcs]; subst; [congruence|].
    rewrite (IH Hcs). reflexivity.
  - rewrite (proj2 (encodeURIComponent_well_formed c) Ew). reflexivity.
Qed.

(** "?via=" and the joined texts, as the parameters "via=<text>" joined by
    "&" after a "?". *)
Lemma join_via (es : list jsstring) :
  es <> [] -> lit "?via=" ++ join (lit "&via=") es = via_query es.
Proof.
  destruct es as [|e es]; [contradiction|]. intros _.
  unfold via_query.
  change (lit "?via=" ++ join (lit "&via=") (e :: es))
    with (lit "?" ++ lit "via=" ++ join (lit "&via=") (e :: es)).
  f_equal. revert e; induction es as [|e2 es IH]; intros e; [reflexivity|].
  change (join (lit "&via=") (e :: e2 :: es))
    with (e ++ lit "&" ++ lit "via=" ++ join (lit "&via=") (e2 :: es)).
  rewrite IH.
  change (join (lit "&") (map (fun e0 => lit "via=" ++ e0) (e :: e2 :: es)))
    with ((lit "via=" ++ e) ++ lit "&"
            ++ join (lit "&") (map (fun e0 => lit "via=" ++ e0) (e2 :: es))).
  rewrite <- app_assoc. reflexivity.
Qed.

Lemma encodeServerCandidates_Ok (cs es : list jsstring) :
  map_throwing encodeURIComponent cs = Ok es ->
  encodeServerCandidates (Some cs) = Ok (via_query es).
Proof.
  intros H. unfold encodeServerCandidates.
  destruct cs as [|c cs]; [inversion H; reflexivity|].
  cbn [List.length Nat.eqb]. rewrite H. cbn [bind].
  rewrite join_via; [reflexivity|].
  apply map_throwing_Forall2 in H. inversion H; discriminate.
Qed.

(** C3. encodeServerCandidates returns the empty string for an absent or
    empty list of candidates, and otherwise "?via=<e1>&via=<e2>&..." where
    <ei> is the percent-encoding (encodeURIComponent) of the i-th
    candidate, in the order of the input. The encodings exist for all
    candidates that are well-formed UTF-16 and are made of unescaped
    characters and "%" only; a candidate with a lone surrogate has no
    percent-encoding and the call throws URIError. *)
Theorem encodeServerCandidates_spec :
  encodeServerCandidates None = Ok (lit "")
  /\ encodeServerCandidates (Some []) = Ok (lit "")
  /\ (forall cs es,
        Forall2 (fun c e => encodeURIComponent c = Ok e) cs es ->
        encodeServerCandidates (Some cs) = Ok (via_query es))
  /\ (forall cs,
        Forall (fun c => well_formed c = true) cs ->
        exists es,
          Forall2 (fun c e => encodeURIComponent c = Ok e) cs es
          /\ encodeServerCandidates (Some cs) = Ok (via_query es))
  /\ (forall c e,
        Forall code_unit c -> encodeURIComponent c = Ok e ->
        forallb uri_safe e = true)
  /\ (forall cs,
        Exists (fun c => well_formed c = false) cs ->
        encodeServerCandidates (Some cs) = Throw URIError)
  /\ encodeServerCandidates (Some [lit "a"; lit "b"]) = Ok (lit "?via=a&via=b")
  /\ encodeServerCandidates (Some [lit "matrix.org"; lit "example.org:8448"])
     = Ok (lit "?via=matrix.org&via=example.org%3A8448").
Proof.
  split; [reflexivity|]. split; [reflexivity|].
  split; [|split; [|split; [|split; [|split; reflexivity]]]].
  - intros cs es H. apply encodeServerCandidates_Ok, map_throwing_Forall2, H.
  - intros cs H.
    destruct (map_throwing_total encodeURIComponent cs) as [es Hes].
    { eapply Forall_impl; [|exact H]. intros c Hc.
      apply (proj1 (encodeURIComponent_well_formed c) Hc). }
    exists es. split; [apply map_throwing_Forall2; exact Hes|].
    apply encodeServerCandidates_Ok; exact Hes.
  - exact encodeURIComponent_safe.
  - intros cs H. unfold encodeServerCandidates.
    destruct cs as [|c cs]; [inversion H|].
    cbn [List.length Nat.eqb]. rewrite (map_throwing_encode_error _ H).
    reflexivity.
Qed.

Lemma encodeServerCandidates_spec_witness :
  encodeServerCandidates (Some [lit "s 1"; lit "s2"])
  = Ok (via_query [lit "s%201"; lit "s2"]).
Proof.
  apply (proj1 (proj2 (proj2 encodeServerCandidates_spec))).
  repeat constructor.
Defined.

(** ** The round trip *)

Lemma upto_shorter (sep : char16) (s t : jsstring) :
  In sep s -> List.length (upto sep (s ++ t)) < List.length s.
Proof.
  induction s as [|c s IH]; intros H; [destruct H|]. simpl.
  destruct (N.eqb_spec c sep) as [->|Hne]; simpl; [lia|].
  destruct H as [H|H]; [contradiction|]. specialize (IH H). lia.
Qed.

Lemma upto_changes (sep : char16) (s t : jsstring) :
  In sep s -> upto sep (s ++ t) <> s.
Proof.
  intros H E. pose proof (upto_shorter sep s t H) as Hl.
  rewrite E in Hl. lia.
Qed.

Lemma upto_free (sep : char16) (s : jsstring) : ~ In sep (upto sep s).
Proof.
  induction s as [|c s IH]; simpl; [intros []|].
  destruct (N.eqb_spec c sep) as [->|Hne]; [intros []|].
  intros [H|H]; [contradiction|]. exact (IH H).
Qed.

Lemma upto_after (sep : char16) (s : jsstring) :
  In sep s -> s = upto sep s ++ sep :: after sep s.
Proof.
  induction s as [|c s IH]; intros H; [destruct H|]. simpl.
  destruct (N.eqb_spec c sep) as [->|Hne]; [reflexivity|].
  destruct H as [H|H]; [contradiction|]. simpl. f_equal. exact (IH H).
Qed.

Lemma split_length_in (sep : char16) (s : jsstring) :
  In sep s -> 2 <= List.length (split [sep] s).
Proof.
  intros H. rewrite split_upto_after.
  assert (E : existsb (N.eqb sep) s = true).
  { apply existsb_exists. exists sep. split; [exact H|apply N.eqb_refl]. }
  rewrite E. pose proof (split_nonempty [sep] (after sep s)) as Hne.
  destruct (split [sep] (after sep s)); [contradiction|]. simpl. lia.
Qed.

Lemma join_not_in (c : char16) (sep : jsstring) (l : list jsstring) :
  ~ In c sep -> Forall (fun e => ~ In c e) l -> ~ In c (join sep l).
Proof.
  intros Hsep H. induction H as [|e l He Hl IH]; [intros []|].
  destruct l as [|e2 l]; [exact He|].
  change (join sep (e :: e2 :: l)) with (e ++ sep ++ join sep (e2 :: l)).
  apply not_in_app; [exact He|]. apply not_in_app; assumption.
Qed.

Lemma filter_all {A} (f : A -> bool) (l : list A) :
  List.length (filter f l) = List.length l ->
  forallb f l = true /\ filter f l = l.
Proof.
  induction l as [|x l IH]; [split; reflexivity|]. simpl.
  pose proof (filter_length_le f l) as Hle.
  destruct (f x); simpl; intros H.
  - destruct IH as [H1 H2]; [lia|]. rewrite H1, H2. split; reflexivity.
  - lia.
Qed.

Lemma encoded_inert (cs es : list jsstring) :
  Forall2 (fun c e => encodeURIComponent c = Ok e) cs es ->
  Forall (fun e => forallb inert e = true) es.
Proof.
  induction 1 as [|c e cs es H _ IH]; constructor; [|exact IH].
  exact (encodeURIComponent_inert _ _ H).
Qed.

(** The candidates that come back are the non-empty encodings. *)
Lemma parse_via_rendered (cs es : list jsstring) :
  Forall2 (fun c e => encodeURIComponent c = Ok e) cs es ->
  es <> [] ->
  parse_via (lit "via=" ++ join (lit "&via=") es) = filter truthy es.
Proof.
  intros H Hne. unfold parse_via.
  rewrite split_via_bare, split_via_join; [reflexivity| |exact Hne].
  eapply Forall_impl; [|exact (encoded_inert _ _ H)].
  exact inert_plain.
Qed.

(** They are the candidates that went in exactly when all of those
    survive. *)
Lemma candidates_survive (cs es : list jsstring) :
  Forall2 (fun c e => encodeURIComponent c = Ok e) cs es ->
  filter truthy es = cs <-> Forall survives cs.
Proof.
  intros H. split.
  - intros E.
    assert (Hall : forallb truthy es = true /\ filter truthy es = es).
    { apply filter_all. rewrite E. exact (Forall2_length H). }
    destruct Hall as [Ht Hf]. rewrite Hf in E. subst es.
    clear Hf. induction cs as [|c cs IH]; constructor.
    + inversion H; subst. simpl in Ht. apply andb_true_iff in Ht as [Hc _].
      split; [destruct c; [discriminate Hc|discriminate]|].
      apply encodeURIComponent_fixed; assumption.
    + inversion H; subst. simpl in Ht. apply andb_true_iff in Ht as [_ Ht].
      apply IH; assumption.
  - intros Hs. induction H as [|c e cs es Hce _ IH]; [reflexivity|].
    inversion Hs as [|? ? [Hne Hun] Hs']; subst.
    rewrite (encodeURIComponent_unescaped _ Hun) in Hce.
    inversion Hce; subst e. simpl.
    destruct c; [contradiction|]. simpl. rewrite (IH Hs'). reflexivity.
Qed.

(** What encodeServerCandidates returns, as the parser will see it. *)
Lemma encodeServerCandidates_shape (cs : list jsstring) :
  (exists es,
      Forall2 (fun c e => encodeURIComponent c = Ok e) cs es
      /\ encodeServerCandidates (Some cs)
         = Ok (match es with
               | [] => []
               | _ :: _ => lit "?" ++ lit "via=" ++ join (lit "&via=") es
               end))
  \/ ((exists e, encodeServerCandidates (Some cs) = Throw e)
      /\ ~ Forall survives cs).
Proof.
  destruct (map_throwing encodeURIComponent cs) as [es|e] eqn:E.
  - left. exists es. split; [apply map_throwing_Forall2; exact E|].
    unfold encodeServerCandidates.
    destruct cs as [|c cs]; [inversion E; reflexivity|].
    cbn [List.length Nat.eqb]. rewrite E. cbn [bind].
    apply map_throwing_Forall2 in E. inversion E; subst. reflexivity.
  - right. split.
    + exists e. unfold encodeServerCandidates.
      destruct cs as [|c cs]; [discriminate E|].
      cbn [List.length Nat.eqb]. rewrite E. reflexivity.
    + intros Hs.
      assert (Hid : map_throwing encodeURIComponent cs = Ok cs).
      { apply map_throwing_Forall2. clear E.
        induction Hs as [|c cs [_ Hun] _ IH]; constructor; [|exact IH].
        exact (encodeURIComponent_unescaped _ Hun). }
      congruence.
Qed.

(** The rendered query holds no "/", and after an id without "?" it is
    found again, whole. *)
Lemma rendered_query (cs es : list jsstring) (id : jsstring) :
  Forall2 (fun c e => encodeURIComponent c = Ok e) cs es ->
  let q := match es with
           | [] => []
           | _ :: _ => lit "?" ++ lit "via=" ++ join (lit "&via=") es
           end in
  ~ In slash q
  /\ (~ In qmark id ->
      upto qmark (id ++ q) = id
      /\ parse_via (upto qmark (after qmark (id ++ q))) = filter truthy es).
Proof.
  intros H q. pose proof (encoded_inert _ _ H) as Hin.
  assert (Hfree : forall c, inert c = false -> ~ In c (lit "&via=") ->
                            ~ In c (join (lit "&via=") es)).
  { intros c Hc Hsep. apply join_not_in; [exact Hsep|].
    eapply Forall_impl; [|exact Hin]. intros e He. exact (inert_not_in c e Hc He). }
  assert (Hslash : ~ In slash (join (lit "&via=") es)).
  { apply Hfree; [reflexivity|]. vm_compute. intuition discriminate. }
  assert (Hqmark : ~ In qmark (join (lit "&via=") es)).
  { apply Hfree; [reflexivity|]. vm_compute. intuition discriminate. }
  split.
  - subst q. destruct es as [|e es]; [intros []|].
    apply not_in_app; [vm_compute; intuition discriminate|].
    apply not_in_app; [vm_compute; intuition discriminate|exact Hslash].
  - intros Hid. subst q. destruct es as [|e es].
    + rewrite app_nil_r, (upto_absent _ _ Hid). split; [reflexivity|].
      rewrite after_absent; [reflexivity|].
      destruct (existsb (N.eqb qmark) id) eqn:E; [|reflexivity].
      apply existsb_exists in E as (x & Hx & Ex). apply N.eqb_eq in Ex.
      subst x. contradiction.
    + change (lit "?" ++ lit "via=" ++ join (lit "&via=") (e :: es))
        with (qmark :: lit "via=" ++ join (lit "&via=") (e :: es)).
      rewrite (upto_app _ _ _ Hid), (after_app _ _ _ Hid).
      split; [reflexivity|].
      rewrite upto_absent.
      * apply (parse_via_rendered cs); [exact H|discriminate].
      * apply not_in_app; [vm_compute; intuition discriminate|exact Hqmark].
Qed.

Lemma forRoom_shape (kind : jsstring) (sg : char16) (rest : jsstring)
      (cs : list jsstring) :
  In (kind, [sg]) room_kinds ->
  forRoom (sg :: rest) cs
  = bind (encodeServerCandidates (Some cs))
         (fun q => Ok (lit "matrix:" ++ kind ++ lit "/" ++ rest ++ q)).
Proof.
  intros Hk. destruct (room_kind_cases _ _ Hk) as [[-> H]|[-> H]];
    inversion H; subst; reflexivity.
Qed.

Lemma forEvent_shape (kind : jsstring) (sg : char16) (room event : jsstring)
      (cs : list jsstring) :
  In (kind, [sg]) room_kinds ->
  forEvent (sg :: room) (36%N :: event) cs
  = bind (encodeServerCandidates (Some cs))
         (fun q => Ok (lit "matrix:" ++ kind ++ lit "/" ++ room
                         ++ lit "/e/" ++ event ++ q)).
Proof.
  intros Hk. destruct (room_kind_cases _ _ Hk) as [[-> H]|[-> H]];
    inversion H; subst; reflexivity.
Qed.

Lemma room_kind_no_slash (kind sigil : jsstring) :
  In (kind, sigil) room_kinds -> ~ In slash kind.
Proof.
  intros Hk. destruct (room_kind_cases _ _ Hk) as [[-> _]|[-> _]];
    vm_compute; intuition discriminate.
Qed.

(** With a "/" after the kind's segment the result is no Room. *)
Lemma parse_not_room (kind sigil x r : jsstring) (v : list jsstring) :
  In (kind, sigil) room_kinds ->
  In slash x ->
  parsePermalink (lit "matrix:" ++ kind ++ lit "/" ++ x) <> Ok (Room r v).
Proof.
  intros Hk Hx Heq.
  rewrite parsePermalink_matrix in Heq by apply startsWith_app.
  change 7 with (List.length (lit "matrix:")) in Heq.
  rewrite substring_app in Heq.
  change (lit "/") with [slash] in Heq. change ([slash] ++ x) with (slash :: x) in Heq.
  rewrite (split_app _ _ _ (room_kind_no_slash _ _ Hk)) in Heq.
  pose proof (split_length_in slash x Hx) as Hlen.
  cbv zeta in Heq.
  replace (Nat.eqb (List.length (kind :: split [slash] x)) 2) with false in Heq
    by (symmetry; apply Nat.eqb_neq; simpl; lia).
  cbv beta iota in Heq.
  repeat match type of Heq with
         | context [if ?b then _ else _] => destruct b
         end; discriminate Heq.
Qed.

(** An event's room id is the segment after the kind's. *)
Lemma parse_event_room (kind sigil a x r ev : jsstring) (v : list jsstring) :
  In (kind, sigil) room_kinds ->
  ~ In slash a ->
  parsePermalink (lit "matrix:" ++ kind ++ lit "/" ++ a ++ lit "/" ++ x)
  = Ok (Event r ev v) ->
  r = sigil ++ a.
Proof.
  intros Hk Ha Heq.
  rewrite parsePermalink_matrix in Heq by apply startsWith_app.
  change 7 with (List.length (lit "matrix:")) in Heq.
  rewrite substring_app in Heq.
  change (lit "/") with [slash] in Heq.
  change ([slash] ++ a ++ [slash] ++ x) with (slash :: a ++ slash :: x) in Heq.
  rewrite (split_app _ _ _ (room_kind_no_slash _ _ Hk)) in Heq.
  rewrite (split_app _ _ _ Ha) in Heq.
  cbv zeta in Heq.
  change (nth_error (kind :: a :: split [slash] x) 1) with (Some a) in Heq.
  change (nth_error (kind :: a :: split [slash] x) 0) with (Some kind) in Heq.
  destruct (room_kind_cases _ _ Hk) as [[-> ->]|[-> ->]];
    repeat match type of Heq with
           | context [strict_eq (Some ?k) ?s] =>
               let b := eval vm_compute in (strict_eq (Some k) s) in
               change (strict_eq (Some k) s) with b in Heq
           end;
    cbv beta iota delta [orb] in Heq;
    repeat match type of Heq with
           | context [if ?b then _ else _] => destruct b
           end; try discriminate Heq; inversion Heq; reflexivity.
Qed.

Lemma round_trip_user (rest : jsstring) :
  round_trip (User (64%N :: rest)) <-> unambiguous (User (64%N :: rest)).
Proof.
  unfold round_trip, unambiguous, render.
  change (forUser (64%N :: rest)) with (Ok (lit "matrix:u/" ++ rest)).
  cbn [bind]. rewrite parse_user. split.
  - intros H.
    assert (E : upto slash rest = rest).
    { apply (f_equal (fun p => match p with Ok (User id) => tl id | _ => [] end)) in H.
      exact H. }
    intros [Hs|Hin]; [discriminate Hs|].
    rewrite <- (app_nil_r rest) in E at 1.
    exact (upto_changes slash rest [] Hin E).
  - intros H. rewrite upto_absent; [reflexivity|].
    intros Hin. apply H. right. exact Hin.
Qed.

Lemma sigil_not_in (c sg : char16) (kind rest : jsstring) :
  In (kind, [sg]) room_kinds -> inert c = false -> c <> 38%N -> c <> 61%N ->
  ~ In c (sg :: rest) <-> ~ In c rest.
Proof.
  intros Hk Hc H1 H2. split; intros H Hin.
  - apply H. right. exact Hin.
  - destruct Hin as [E|Hin]; [|contradiction]. subst c.
    destruct (room_kind_cases _ _ Hk) as [[_ E]|[_ E]]; inversion E; subst;
      discriminate Hc.
Qed.

Lemma round_trip_room (kind : jsstring) (sg : char16) (rest : jsstring)
      (cs : list jsstring) :
  In (kind, [sg]) room_kinds ->
  round_trip (Room (sg :: rest) cs) <-> unambiguous (Room (sg :: rest) cs).
Proof.
  intros Hk. unfold round_trip, unambiguous, render.
  rewrite (forRoom_shape kind sg rest cs Hk).
  rewrite (sigil_not_in slash sg kind rest Hk) by (reflexivity || discriminate).
  rewrite (sigil_not_in qmark sg kind rest Hk) by (reflexivity || discriminate).
  destruct (encodeServerCandidates_shape cs) as [(es & Hes & ->)|[[e ->] Hno]].
  2: { cbn [bind]. split; [discriminate|]. intros (_ & _ & H). contradiction. }
  cbn [bind].
  destruct (rendered_query cs es rest Hes) as [Hq Hparse].
  set (q := match es with
            | [] => []
            | _ :: _ => lit "?" ++ lit "via=" ++ join (lit "&via=") es
            end) in *.
  destruct (in_dec N.eq_dec slash rest) as [Hs|Hs].
  { split; [|intros (H & _); contradiction].
    intros H. exfalso. revert H. apply (parse_not_room kind [sg]); [exact Hk|].
    apply in_or_app. left. exact Hs. }
  rewrite (parse_room kind [sg]) by (try exact Hk; apply not_in_app; assumption).
  destruct (in_dec N.eq_dec qmark rest) as [Hm|Hm].
  { split; [|intros (_ & H & _); contradiction].
    intros H. exfalso. apply (upto_changes qmark rest q Hm).
    apply (f_equal (fun p => match p with Ok (Room id _) => tl id | _ => [] end)) in H.
    exact H. }
  destruct (Hparse Hm) as [-> ->].
  rewrite <- (candidates_survive cs es Hes).
  split.
  - intros H.
    apply (f_equal (fun p => match p with Ok (Room _ v) => v | _ => [] end)) in H.
    auto.
  - intros (_ & _ & ->). reflexivity.
Qed.

Lemma round_trip_event (kind : jsstring) (sg : char16) (room event : jsstring)
      (cs : list jsstring) :
  In (kind, [sg]) room_kinds ->
  round_trip (Event (sg :: room) (36%N :: event) cs)
  <-> unambiguous (Event (sg :: room) (36%N :: event) cs).
Proof.
  intros Hk. unfold round_trip, unambiguous, render.
  rewrite (forEvent_shape kind sg room event cs Hk).
  rewrite (sigil_not_in slash sg kind room Hk) by (reflexivity || discriminate).
  assert (Hev : ~ In qmark (36%N :: event) <-> ~ In qmark event).
  { split; intros H Hin; [apply H; right; exact Hin|].
    destruct Hin as [E|Hin]; [discriminate E|contradiction]. }
  rewrite Hev.
  destruct (encodeServerCandidates_shape cs) as [(es & Hes & ->)|[[e ->] Hno]].
  2: { cbn [bind]. split; [discriminate|]. intros (_ & _ & H). contradiction. }
  cbn [bind].
  destruct (rendered_query cs es event Hes) as [_ Hparse].
  set (q := match es with
            | [] => []
            | _ :: _ => lit "?" ++ lit "via=" ++ join (lit "&via=") es
            end) in *.
  destruct (in_dec N.eq_dec slash room) as [Hs|Hs].
  { split; [|intros (H & _); contradiction].
    intros H. exfalso.
    rewrite (upto_after slash room Hs) in H at 1.
    rewrite <- app_assoc in H.
    change ((slash :: after slash room) ++ lit "/e/" ++ event ++ q)
      with (lit "/" ++ after slash room ++ lit "/e/" ++ event ++ q) in H.
    apply (parse_event_room kind [sg]) in H; [|exact Hk|apply upto_free].
    apply (f_equal (@tl N)) in H. simpl tl in H.
    apply (upto_changes slash room [] Hs).
    rewrite app_nil_r. symmetry. exact H. }
  rewrite (parse_event kind [sg]) by assumption.
  destruct (in_dec N.eq_dec qmark event) as [Hm|Hm].
  { split; [|intros (_ & H & _); contradiction].
    intros H. exfalso. apply (upto_changes qmark event q Hm).
    apply (f_equal (fun p => match p with Ok (Event _ id _) => tl id | _ => [] end)) in H.
    exact H. }
  destruct (Hparse Hm) as [-> ->].
  rewrite <- (candidates_survive cs es Hes).
  split.
  - intros H.
    apply (f_equal (fun p => match p with Ok (Event _ _ v) => v | _ => [] end)) in H.
    auto.
  - intros (_ & _ & ->). reflexivity.
Qed.

Lemma has_sigil_cons (c : char16) (s : jsstring) :
  has_sigil [c] s -> exists rest, s = c :: rest.
Proof.
  unfold has_sigil. destruct s as [|d s]; simpl; intros H; inversion H; eauto.
Qed.

(** C1, as stated, fails: a candidate with a port is percent-encoded by
    the builder and not decoded by the parser, and a user id with a "/" is
    cut at it. *)
Lemma round_trip_counterexample :
  legal_sigils (Room (lit "#room:example.org") [lit "example.org:8448"])
  /\ bind (render (Room (lit "#room:example.org") [lit "example.org:8448"]))
          parsePermalink
     = Ok (Room (lit "#room:example.org") [lit "example.org%3A8448"])
  /\ ~ round_trip (Room (lit "#room:example.org") [lit "example.org:8448"])
  /\ legal_sigils (User (lit "@alice/bot:example.org"))
  /\ bind (render (User (lit "@alice/bot:example.org"))) parsePermalink
     = Ok (User (lit "@alice"))
  /\ ~ (forall P, legal_sigils P -> round_trip P).
Proof.
  assert (Hlegal : legal_sigils (Room (lit "#room:example.org")
                                      [lit "example.org:8448"]))
    by (right; reflexivity).
  assert (Hno : ~ round_trip (Room (lit "#room:example.org")
                                   [lit "example.org:8448"]))
    by (unfold round_trip; vm_compute; discriminate).
  repeat split; try reflexivity; try assumption.
  intros H. exact (Hno (H _ Hlegal)).
Qed.

(** C1, amended. For a PermalinkParts value whose identifiers carry the
    sigils of their kinds, parsing the rendered permalink gives the value
    back, with the same server candidates in the same order, exactly when
    the user id holds no "/", the room id holds no "/" (and, in a Room
    value, no "?"), the event id holds no "?", and every server candidate
    is non-empty and made only of the characters encodeURIComponent leaves
    as they are (letters, digits and - _ . ! ~ * ' ( )). *)
Theorem round_trip_iff (P : PermalinkParts) :
  legal_sigils P -> (round_trip P <-> unambiguous P).
Proof.
  destruct P as [userId|roomIdOrAlias viaServers|roomId eventId viaServers];
    simpl legal_sigils.
  - intros H. apply has_sigil_cons in H as [rest ->]. apply round_trip_user.
  - intros [H|H]; apply has_sigil_cons in H as [rest ->].
    + apply (round_trip_room (lit "roomid")). right; left; reflexivity.
    + apply (round_trip_room (lit "r")). left; reflexivity.
  - intros [[H|H] He]; apply has_sigil_cons in H as [room ->];
      apply has_sigil_cons in He as [event ->].
    + apply (round_trip_event (lit "roomid")). right; left; reflexivity.
    + apply (round_trip_event (lit "r")). left; reflexivity.
Qed.

Lemma round_trip_iff_witness :
  legal_sigils (Event (lit "!roomid:example.org") (lit "$ev/ent:example.org")
                      [lit "s1.example.org"; lit "s2"])
  /\ round_trip (Event (lit "!roomid:example.org") (lit "$ev/ent:example.org")
                       [lit "s1.example.org"; lit "s2"]).
Proof.
  assert (Hlegal : legal_sigils
                     (Event (lit "!roomid:example.org")
                            (lit "$ev/ent:example.org")
                            [lit "s1.example.org"; lit "s2"]))
    by (split; [left|]; reflexivity).
  split; [exact Hlegal|].
  apply (proj2 (round_trip_iff _ Hlegal)).
  split; [|split].
  - vm_compute. intros H.
    repeat (destruct H as [H|H]; [discriminate H|]); exact H.
  - vm_compute. intros H.
    repeat (destruct H as [H|H]; [discriminate H|]); exact H.
  - repeat constructor; discriminate.
Defined.

(** * Further properties of the permalink codec *)

(** ** Every run of parsePermalink is one of six outcomes *)

Lemma join_slash_nil : join (lit "/") [] = lit "".
Proof. reflexivity. Qed.

Lemma room_kind_outcome (fullUrl kind sigil : jsstring)
      (parts : list jsstring) :
  startsWith fullUrl (lit "matrix:") = true ->
  In (kind, sigil) room_kinds ->
  segments fullUrl = kind :: parts ->
  parse_outcome fullUrl
    (if Nat.eqb (List.length (kind :: parts)) 2 then
       match nth_error (kind :: parts) 1 with
       | None => Throw TypeError
       | Some entity =>
           Ok (Room (sigil ++ template (nth_error (split (lit "?") entity) 0))
                    (parse_via (second_or_empty (split (lit "?") entity))))
       end
     else if strict_eq (nth_error (kind :: parts) 2) (lit "e") then
       Ok (Event (sigil ++ template (nth_error (kind :: parts) 1))
                 (lit "$" ++
                  template
                    (nth_error
                       (split (lit "?")
                          (if Nat.ltb 3 (List.length (kind :: parts))
                           then join (lit "/") (skipn 3 (kind :: parts))
                           else lit "")) 0))
                 (parse_via
                    (second_or_empty
                       (split (lit "?")
                          (if Nat.ltb 3 (List.length (kind :: parts))
                           then join (lit "/") (skipn 3 (kind :: parts))
                           else lit "")))))
     else Throw MalformedRoomPermalink).
Proof.
  intros Hp Hin Hparts. change (lit "?") with [qmark].
  destruct parts as [|p1 [|p2 parts]].
  - apply (outcome_malformed fullUrl _ _ Hp Hin); rewrite Hparts;
      [reflexivity|discriminate|discriminate].
  - cbn [List.length Nat.eqb]. change (nth_error [kind; p1] 1) with (Some p1).
    cbn iota. rewrite split_first, split_second.
    apply (outcome_room fullUrl _ _ p1 Hp Hin Hparts).
  - cbn [List.length Nat.eqb].
    change (nth_error (kind :: p1 :: p2 :: parts) 2) with (Some p2).
    change (nth_error (kind :: p1 :: p2 :: parts) 1) with (Some p1).
    cbn [strict_eq template].
    destruct (streq p2 (lit "e")) eqn:Ee.
    + apply streq_eq in Ee; subst p2.
      assert (Ht : (if Nat.ltb 3 (S (S (S (List.length parts))))
                    then join (lit "/") parts else lit "")
                   = join (lit "/") parts)
        by (destruct parts; reflexivity).
      change (skipn 3 (kind :: p1 :: lit "e" :: parts)) with parts.
      rewrite Ht, split_first, split_second.
      apply (outcome_event fullUrl _ _ p1 parts Hp Hin Hparts).
    + apply (outcome_malformed fullUrl _ _ Hp Hin); rewrite Hparts;
        [reflexivity|discriminate|].
      intros E; inversion E as [E']. rewrite E' in Ee. discriminate Ee.
Qed.

Lemma parsePermalink_outcome (fullUrl : jsstring) :
  parse_outcome fullUrl (parsePermalink fullUrl).
Proof.
  destruct (startsWith fullUrl (lit "matrix:")) eqn:Hp.
  2: { replace (parsePermalink fullUrl) with (@Throw PermalinkParts NotAPermalink).
       - constructor; exact Hp.
       - unfold parsePermalink. rewrite Hp, orb_true_r. reflexivity. }
  rewrite (parsePermalink_matrix _ Hp). fold (segments fullUrl).
  cbv zeta.
  assert (Hne : segments fullUrl <> []) by apply split_nonempty.
  destruct (segments fullUrl) as [|p0 parts] eqn:Hparts; [contradiction|].
  clear Hne. change (nth_error (p0 :: parts) 0) with (Some p0). cbn [strict_eq].
  destruct (streq p0 (lit "u")) eqn:Eu.
  { apply streq_eq in Eu. subst p0. rewrite <- Hparts.
    apply outcome_user; [exact Hp|rewrite Hparts; reflexivity]. }
  destruct (streq p0 (lit "r")) eqn:Er.
  { apply streq_eq in Er. subst p0. cbn [orb].
    apply (room_kind_outcome fullUrl (lit "r") (lit "#") parts Hp);
      [simpl; tauto|exact Hparts]. }
  destruct (streq p0 (lit "roomid")) eqn:Eid.
  { apply streq_eq in Eid. subst p0. cbn [orb].
    apply (room_kind_outcome fullUrl (lit "roomid") (lit "!") parts Hp);
      [simpl; tauto|exact Hparts]. }
  cbn [orb].
  apply outcome_unknown; rewrite ?Hparts; [exact Hp|..];
    intros E; inversion E as [E']; apply streq_eq in E'; congruence.
Qed.

(** X1. parsePermalink throws nothing but its own three errors: the
    TypeError of [entityNoSigil.split] on a missing segment cannot
    happen, as that line is reached with exactly two segments only. *)
Theorem parsePermalink_throws_only (fullUrl : jsstring) (e : exn) :
  parsePermalink fullUrl = Throw e ->
  e = NotAPermalink \/ e = UnknownEntityType \/ e = MalformedRoomPermalink.
Proof.
  intros H. pose proof (parsePermalink_outcome fullUrl) as Ho.
  rewrite H in Ho. inversion Ho; subst; auto.
Qed.

Lemma parsePermalink_throws_only_witness :
  MalformedRoomPermalink = NotAPermalink
  \/ MalformedRoomPermalink = UnknownEntityType
  \/ MalformedRoomPermalink = MalformedRoomPermalink.
Proof.
  apply (parsePermalink_throws_only (lit "matrix:r/room/x")). reflexivity.
Defined.

(** X2. Whatever parsePermalink returns carries the sigils of its kind:
    a user id starts with "@", a room id with "#" or "!", an event id with
    "$". *)
Theorem parsePermalink_legal (fullUrl : jsstring) (P : PermalinkParts) :
  parsePermalink fullUrl = Ok P -> legal_sigils P.
Proof.
  intros H. pose proof (parsePermalink_outcome fullUrl) as Ho.
  rewrite H in Ho. inversion Ho as [| | kind sigil entity _ Hk _
                                     | kind sigil entity rest _ Hk _ | |];
    subst; simpl.
  - reflexivity.
  - destruct (room_kind_cases _ _ Hk) as [[_ ->]|[_ ->]];
      [right|left]; reflexivity.
  - split; [|reflexivity].
    destruct (room_kind_cases _ _ Hk) as [[_ ->]|[_ ->]];
      [right|left]; reflexivity.
Qed.

Lemma parsePermalink_legal_witness :
  legal_sigils (Event (lit "!abc") (lit "$evt/1") [lit "hs"]).
Proof.
  apply (parsePermalink_legal (lit "matrix:roomid/abc/e/evt/1?via=hs")).
  reflexivity.
Defined.

Lemma room_kind_head (kind sigil : jsstring) (parts : list jsstring) :
  In (kind, sigil) room_kinds ->
  nth_error (kind :: parts) 0 <> Some (lit "u")
  /\ (nth_error (kind :: parts) 0 = Some (lit "r")
      \/ nth_error (kind :: parts) 0 = Some (lit "roomid")).
Proof.
  intros Hk. destruct (room_kind_cases _ _ Hk) as [[-> _]|[-> _]];
    (split; [discriminate|]); [left|right]; reflexivity.
Qed.

(** X3. The variant parsePermalink returns tells the shape of the input,
    and the shape decides the variant: User exactly for the kind "u"; Room
    exactly for the kind "r" or "roomid" with two segments; Event exactly
    for those kinds with "e" as third segment. *)
Theorem parsePermalink_variant (fullUrl : jsstring) :
  ((exists id, parsePermalink fullUrl = Ok (User id))
   <-> startsWith fullUrl (lit "matrix:") = true
       /\ nth_error (segments fullUrl) 0 = Some (lit "u"))
  /\ ((exists id via, parsePermalink fullUrl = Ok (Room id via))
      <-> startsWith fullUrl (lit "matrix:") = true
          /\ exists kind sigil entity,
               In (kind, sigil) room_kinds
               /\ segments fullUrl = [kind; entity])
  /\ ((exists room event via, parsePermalink fullUrl = Ok (Event room event via))
      <-> startsWith fullUrl (lit "matrix:") = true
          /\ exists kind sigil entity rest,
               In (kind, sigil) room_kinds
               /\ segments fullUrl = kind :: entity :: lit "e" :: rest).
Proof.
  pose proof (parsePermalink_outcome fullUrl) as Ho.
  split; [|split]; split.
  - intros [id H]. rewrite H in Ho. inversion Ho; subst. auto.
  - intros [Hp Hu]. remember (parsePermalink fullUrl) as r eqn:Hr.
    destruct Ho as [Hn| | kind sigil entity _ Hk Hs
                    | kind sigil entity rest _ Hk Hs
                    | kind sigil _ Hk Hs _ _ | _ Hnu _ _];
      try (eexists; reflexivity); try congruence; exfalso;
      rewrite ?Hs in Hu;
      exact (proj1 (room_kind_head _ _ [] Hk) Hu).
  - intros (id & via & H). rewrite H in Ho.
    inversion Ho as [| | kind sigil entity Hp Hk Hs | | |]; subst.
    split; [exact Hp|]. exists kind, sigil, entity. auto.
  - intros (Hp & kind & sigil & entity & Hk & Hs).
    remember (parsePermalink fullUrl) as r eqn:Hr.
    destruct (room_kind_head _ _ [entity] Hk) as [Hnotu Hkind].
    destruct Ho as [Hn| _ Hu | kind' sigil' entity' _ Hk' Hs'
                    | kind' sigil' entity' rest' _ Hk' Hs'
                    | kind' sigil' _ Hk' Hs' Hl He | _ Hnu Hnr Hnid];
      try (eexists; eexists; reflexivity); try congruence; exfalso;
      rewrite Hs in *;
      first [ discriminate | contradiction | apply Hl; reflexivity
            | destruct Hkind; contradiction ].
  - intros (room & event & via & H). rewrite H in Ho.
    inversion Ho as [| | | kind sigil entity rest Hp Hk Hs | |]; subst.
    split; [exact Hp|]. exists kind, sigil, entity, rest. auto.
  - intros (Hp & kind & sigil & entity & rest & Hk & Hs).
    remember (parsePermalink fullUrl) as r eqn:Hr.
    destruct (room_kind_head _ _ (entity :: lit "e" :: rest) Hk) as [Hnotu Hkind].
    destruct Ho as [Hn| _ Hu | kind' sigil' entity' _ Hk' Hs'
                    | kind' sigil' entity' rest' _ Hk' Hs'
                    | kind' sigil' _ Hk' Hs' Hl He | _ Hnu Hnr Hnid];
      try (eexists; eexists; eexists; reflexivity); try congruence; exfalso;
      rewrite Hs in *;
      first [ discriminate | contradiction | apply He; reflexivity
            | destruct Hkind; contradiction ].
Qed.

(** ** What the parsed candidates look like *)

(** Induction along the scan of [split(/&?via=/)]. *)
Lemma split_via_cases (P : jsstring -> list jsstring -> Prop) :
  P [] [[]] ->
  (forall sep t,
      via_separator sep ->
      P t (split_re match_via t) ->
      P (sep ++ t) ([] :: split_re match_via t)) ->
  (forall c s p ps,
      match_via (c :: s) = None ->
      split_re match_via s = p :: ps ->
      P s (p :: ps) ->
      P (c :: s) ((c :: p) :: ps)) ->
  forall s, P s (split_re match_via s).
Proof.
  intros Hnil Hsep Hchar s.
  remember (List.length s) as n eqn:Hn.
  assert (Hle : List.length s <= n) by lia. clear Hn.
  revert s Hle; induction n as [|n IH]; intros s Hle.
  - destruct s; [exact Hnil|simpl in Hle; lia].
  - destruct s as [|c s]; [exact Hnil|]. simpl in Hle.
    destruct (startsWith (c :: s) (lit "&via=")) eqn:E5.
    { apply startsWith_prefix in E5 as [t Ht]. rewrite Ht, split_via_amp.
      apply Hsep; [left; reflexivity|]. apply IH.
      apply (f_equal (@List.length N)) in Ht. simpl in Ht. lia. }
    destruct (startsWith (c :: s) (lit "via=")) eqn:E4.
    { apply startsWith_prefix in E4 as [t Ht]. rewrite Ht, split_via_bare.
      apply Hsep; [right; reflexivity|]. apply IH.
      apply (f_equal (@List.length N)) in Ht. simpl in Ht. lia. }
    assert (Hm : match_via (c :: s) = None)
      by (unfold match_via; rewrite E5, E4; reflexivity).
    rewrite (split_via_none _ _ Hm).
    assert (Hne : split_re match_via s <> []) by apply split_re_from_nonempty.
    destruct (split_re match_via s) as [|p ps] eqn:Es; [contradiction|].
    apply Hchar; [exact Hm|exact Es|]. rewrite <- Es. apply IH. lia.
Qed.

(** The pieces are made of code units of the query. *)
Lemma split_via_chars (s p : jsstring) (c : char16) :
  In p (split_re match_via s) -> In c p -> In c s.
Proof.
  revert p c. pattern s, (split_re match_via s).
  apply split_via_cases; clear s.
  - intros p c [<-|[]] [].
  - intros sep t _ IH p c [<-|Hp] Hc; [destruct Hc|].
    apply in_or_app. right. exact (IH p c Hp Hc).
  - intros c0 s p0 ps _ _ IH p c [<-|Hp] Hc.
    + destruct Hc as [->|Hc]; [left; reflexivity|].
      right. apply (IH p0 c); [left; reflexivity|exact Hc].
    + right. apply (IH p c); [right; exact Hp|exact Hc].
Qed.

Lemma startsWith_app_l (s t pat : jsstring) :
  startsWith s pat = true -> startsWith (s ++ t) pat = true.
Proof.
  intros H. apply startsWith_prefix in H as [u ->].
  rewrite <- app_assoc. apply startsWith_app.
Qed.

(** No piece holds "via=": an occurrence would have been matched. *)
Lemma split_via_no_via (s : jsstring) :
  Forall (fun p => contains (lit "via=") p = false) (split_re match_via s)
  /\ exists t, s = hd [] (split_re match_via s) ++ t.
Proof.
  pattern s, (split_re match_via s).
  apply split_via_cases; clear s.
  - split; [repeat constructor|exists []; reflexivity].
  - intros sep t _ [IH _]. split; [constructor; [reflexivity|exact IH]|].
    exists (sep ++ t). reflexivity.
  - intros c s p ps Hm _ [IH [t Ht]]. simpl in Ht.
    inversion IH as [|? ? Hp Hps]; subst.
    split; [|exists t; reflexivity].
    constructor; [|exact Hps].
    cbn [contains]. rewrite Hp, orb_false_r.
    destruct (startsWith (c :: p) (lit "via=")) eqn:E; [|reflexivity].
    exfalso. apply (startsWith_app_l _ t) in E.
    unfold match_via in Hm. simpl app in E. rewrite E in Hm.
    destruct (startsWith (c :: p ++ t) (lit "&via=")); discriminate Hm.
Qed.

Lemma parse_via_candidates (x : jsstring) :
  Forall (fun c => c <> [] /\ ~ In qmark c /\ contains (lit "via=") c = false)
         (parse_via (upto qmark x)).
Proof.
  unfold parse_via. apply Forall_forall. intros c Hc.
  apply filter_In in Hc as [Hin Ht]. split; [|split].
  - intros ->. discriminate Ht.
  - intros Hq. apply (upto_free qmark x).
    exact (split_via_chars _ _ _ Hin Hq).
  - pose proof (proj1 (split_via_no_via (upto qmark x))) as H.
    rewrite Forall_forall in H. exact (H c Hin).
Qed.

(** X4. The server candidates parsePermalink returns are never empty,
    never contain a "?", and never contain the text "via=". *)
Theorem parsePermalink_candidates (fullUrl : jsstring) (P : PermalinkParts) :
  parsePermalink fullUrl = Ok P ->
  Forall (fun c => c <> [] /\ ~ In qmark c /\ contains (lit "via=") c = false)
         (via_of P).
Proof.
  intros H. pose proof (parsePermalink_outcome fullUrl) as Ho.
  rewrite H in Ho. inversion Ho; subst; simpl via_of.
  - constructor.
  - apply parse_via_candidates.
  - apply parse_via_candidates.
Qed.

Lemma parsePermalink_candidates_witness :
  Forall (fun c => c <> [] /\ ~ In qmark c /\ contains (lit "via=") c = false)
         [lit "a"; lit "b&c"].
Proof.
  apply (parsePermalink_candidates
           (lit "matrix:r/room?via=a&via=&via=via=b&c?via=d")
           (Room (lit "#room") [lit "a"; lit "b&c"])).
  reflexivity.
Defined.

(** ** The builders *)

Lemma encodeEntity_Ok (id s : jsstring) :
  encodeEntity id = Ok s ->
  exists rest,
    (id = lit "!" ++ rest /\ s = lit "roomid/" ++ rest)
    \/ (id = lit "#" ++ rest /\ s = lit "r/" ++ rest)
    \/ (id = lit "@" ++ rest /\ s = lit "u/" ++ rest)
    \/ (id = lit "$" ++ rest /\ s = lit "e/" ++ rest).
Proof.
  unfold encodeEntity, index. destruct id as [|c rest]; [discriminate|].
  change (lit "!") with [33%N]. change (lit "#") with [35%N].
  change (lit "@") with [64%N]. change (lit "$") with [36%N].
  cbn [nth_error strict_eq streq]. rewrite !andb_true_r.
  intros H0. exists rest. revert H0.
  destruct (N.eqb_spec c 33) as [->|_].
  { intros H; inversion H. left. split; reflexivity. }
  destruct (N.eqb_spec c 35) as [->|_].
  { intros H; inversion H. right; left. split; reflexivity. }
  destruct (N.eqb_spec c 64) as [->|_].
  { intros H; inversion H. right; right; left. split; reflexivity. }
  destruct (N.eqb_spec c 36) as [->|_].
  { intros H; inversion H. right; right; right. split; reflexivity. }
  intros H; discriminate H.
Qed.

Lemma encodeEntity_sigiled (id : jsstring) :
  (sigiled id = true -> exists s, encodeEntity id = Ok s)
  /\ (sigiled id = false -> encodeEntity id = Throw (UnrecognizedSigil id)).
Proof.
  unfold encodeEntity, index, UnrecognizedSigil.
  destruct id as [|c rest]; [split; [discriminate|reflexivity]|].
  change (lit "!") with [33%N]. change (lit "#") with [35%N].
  change (lit "@") with [64%N]. change (lit "$") with [36%N].
  cbn [nth_error strict_eq streq sigiled].
  change sigils with [33%N; 35%N; 64%N; 36%N].
  cbn [existsb]. rewrite !andb_true_r.
  destruct (N.eqb c 33); cbn [orb]; [split; [eauto|discriminate]|].
  destruct (N.eqb c 35); cbn [orb]; [split; [eauto|discriminate]|].
  destruct (N.eqb c 64); cbn [orb]; [split; [eauto|discriminate]|].
  destruct (N.eqb c 36); cbn [orb]; [split; [eauto|discriminate]|].
  split; [discriminate|reflexivity].
Qed.

Lemma encodeEntity_injective (a b s : jsstring) :
  encodeEntity a = Ok s -> encodeEntity b = Ok s -> a = b.
Proof.
  intros Ha Hb.
  apply encodeEntity_Ok in Ha as [ra Ha]. apply encodeEntity_Ok in Hb as [rb Hb].
  destruct Ha as [[-> Ha]|[[-> Ha]|[[-> Ha]|[-> Ha]]]];
    destruct Hb as [[-> Hb]|[[-> Hb]|[[-> Hb]|[-> Hb]]]];
    rewrite Ha in Hb; cbn in Hb; inversion Hb; reflexivity.
Qed.

(** X5. Two identifiers are never given the same link: forEntity (and
    with it forUser) is injective where it succeeds, as encodeEntity is. *)
Theorem forEntity_injective (a b url : jsstring) :
  forEntity a = Ok url -> forEntity b = Ok url -> a = b.
Proof.
  unfold forEntity. intros Ha Hb.
  apply bind_Ok in Ha as (sa & Ha & Ea). apply bind_Ok in Hb as (sb & Hb & Eb).
  inversion Ea as [Ea']. inversion Eb as [Eb']. rewrite <- Eb' in Ea'.
  apply (app_inv_head (lit "matrix:")) in Ea'. subst sb.
  exact (encodeEntity_injective _ _ _ Ha Hb).
Qed.

Lemma forEntity_injective_witness :
  lit "#room:example.org" = lit "#room:example.org".
Proof.
  apply (forEntity_injective (lit "#room:example.org") (lit "#room:example.org")
           (lit "matrix:r/room:example.org")); reflexivity.
Defined.

(** X6. forRoom and forEvent fail exactly when an identifier starts with
    none of the four sigils or a candidate is ill-formed UTF-16, and the
    first failure in the order room id, event id, candidates is the one
    reported; the kind of the sigil is not checked. *)
Theorem builders_outcome (roomId eventId : jsstring) (cs : list jsstring) :
  (sigiled roomId = false ->
   forRoom roomId cs = Throw (UnrecognizedSigil roomId)
   /\ forEvent roomId eventId cs = Throw (UnrecognizedSigil roomId))
  /\ (sigiled roomId = true -> sigiled eventId = false ->
      forEvent roomId eventId cs = Throw (UnrecognizedSigil eventId))
  /\ (sigiled roomId = true ->
      Exists (fun c => well_formed c = false) cs ->
      forRoom roomId cs = Throw URIError
      /\ (sigiled eventId = true -> forEvent roomId eventId cs = Throw URIError))
  /\ (sigiled roomId = true ->
      Forall (fun c => well_formed c = true) cs ->
      (exists url, forRoom roomId cs = Ok url)
      /\ (sigiled eventId = true -> exists url, forEvent roomId eventId cs = Ok url)).
Proof.
  unfold forRoom, forEvent.
  destruct (encodeEntity_sigiled roomId) as [Hr1 Hr2].
  destruct (encodeEntity_sigiled eventId) as [He1 He2].
  split; [|split; [|split]].
  - intros H. rewrite (Hr2 H). split; reflexivity.
  - intros Hr He. destruct (Hr1 Hr) as [r ->]. cbn [bind].
    rewrite (He2 He). reflexivity.
  - intros Hr Hc. destruct (Hr1 Hr) as [r ->]. cbn [bind].
    assert (Hq : encodeServerCandidates (Some cs) = Throw URIError).
    { unfold encodeServerCandidates. destruct cs as [|c cs]; [inversion Hc|].
      cbn [List.length Nat.eqb]. rewrite (map_throwing_encode_error _ Hc).
      reflexivity. }
    rewrite Hq. split; [reflexivity|].
    intros He. destruct (He1 He) as [e ->]. reflexivity.
  - intros Hr Hc. destruct (Hr1 Hr) as [r ->]. cbn [bind].
    destruct (map_throwing_total encodeURIComponent cs) as [es Hes].
    { eapply Forall_impl; [|exact Hc]. intros c Hw.
      apply (proj1 (encodeURIComponent_well_formed c) Hw). }
    rewrite (encodeServerCandidates_Ok _ _ Hes). cbn [bind].
    split; [eauto|]. intros He. destruct (He1 He) as [e ->]. cbn [bind]. eauto.
Qed.

Lemma builders_outcome_witness :
  forEvent (lit "room:example.org") (lit "evt") [[0xD800%N]]
  = Throw (UnrecognizedSigil (lit "room:example.org")).
Proof.
  apply (proj2 (proj1 (builders_outcome (lit "room:example.org") (lit "evt")
                         [[0xD800%N]]) eq_refl)).
Defined.

Lemma bind_prefix (m : result jsstring) (k : jsstring -> jsstring) (url : jsstring) :
  bind m (fun x => Ok (lit "matrix:" ++ k x)) = Ok url ->
  startsWith url (lit "matrix:") = true.
Proof.
  intros H. apply bind_Ok in H as (x & _ & H). inversion H.
  apply (startsWith_app (lit "matrix:")).
Qed.

(** X7. Every link a builder returns starts with "matrix:", so
    parsePermalink never rejects it as not being a permalink. *)
Theorem built_links_are_permalinks (url : jsstring) :
  (exists id, forUser id = Ok url \/ forEntity id = Ok url)
  \/ (exists id cs, forRoom id cs = Ok url)
  \/ (exists room event cs, forEvent room event cs = Ok url) ->
  startsWith url (lit "matrix:") = true
  /\ parsePermalink url <> Throw NotAPermalink.
Proof.
  intros H.
  assert (Hp : startsWith url (lit "matrix:") = true).
  { destruct H as [(id & [H|H])|[(id & cs & H)|(room & event & cs & H)]].
    - unfold forUser in H. exact (bind_prefix _ (fun u => u) _ H).
    - unfold forEntity in H. exact (bind_prefix _ (fun u => u) _ H).
    - unfold forRoom in H. apply bind_Ok in H as (r & _ & H).
      apply bind_Ok in H as (q & _ & H). inversion H.
      apply (startsWith_app (lit "matrix:")).
    - unfold forEvent in H. apply bind_Ok in H as (r & _ & H).
      apply bind_Ok in H as (e & _ & H). apply bind_Ok in H as (q & _ & H).
      inversion H. apply (startsWith_app (lit "matrix:")). }
  split; [exact Hp|]. intros Hn.
  pose proof (parsePermalink_outcome url) as Ho. rewrite Hn in Ho.
  inversion Ho; congruence.
Qed.

Lemma built_links_are_permalinks_witness :
  startsWith (lit "matrix:e/evt:example.org") (lit "matrix:") = true
  /\ parsePermalink (lit "matrix:e/evt:example.org") <> Throw NotAPermalink.
Proof.
  apply built_links_are_permalinks.
  left. exists (lit "$evt:example.org"). right. reflexivity.
Defined.

(** ** Builders and parser together *)

(** X8. What parsePermalink makes of a forEntity link depends on the
    sigil alone: a user id comes back cut at its first "/", a room id
    without "/" comes back as a Room cut at its first "?", and the link
    of an event id is always rejected with UnknownEntityType, as the
    parser knows no kind "e". *)
Theorem forEntity_then_parse (rest : jsstring) :
  bind (forEntity (lit "$" ++ rest)) parsePermalink = Throw UnknownEntityType
  /\ bind (forEntity (lit "@" ++ rest)) parsePermalink
     = Ok (User (lit "@" ++ upto slash rest))
  /\ (~ In slash rest ->
      bind (forEntity (lit "#" ++ rest)) parsePermalink
      = Ok (Room (lit "#" ++ upto qmark rest)
                 (parse_via (upto qmark (after qmark rest))))
      /\ bind (forEntity (lit "!" ++ rest)) parsePermalink
         = Ok (Room (lit "!" ++ upto qmark rest)
                    (parse_via (upto qmark (after qmark rest))))).
Proof.
  split; [|split].
  - change (forEntity (lit "$" ++ rest))
      with (Ok (lit "matrix:" ++ lit "e" ++ slash :: rest)).
    cbn [bind].
    rewrite parsePermalink_matrix by apply (startsWith_app (lit "matrix:")).
    change 7 with (List.length (lit "matrix:")). rewrite substring_app.
    change (lit "/") with [slash].
    rewrite split_app by (vm_compute; intuition discriminate).
    reflexivity.
  - change (forEntity (lit "@" ++ rest)) with (Ok (lit "matrix:u/" ++ rest)).
    cbn [bind]. apply parse_user.
  - intros Hs. split.
    + change (forEntity (lit "#" ++ rest))
        with (Ok (lit "matrix:" ++ lit "r" ++ lit "/" ++ rest)).
      cbn [bind]. apply parse_room; [left; reflexivity|exact Hs].
    + change (forEntity (lit "!" ++ rest))
        with (Ok (lit "matrix:" ++ lit "roomid" ++ lit "/" ++ rest)).
      cbn [bind]. apply parse_room; [right; left; reflexivity|exact Hs].
Qed.

Lemma forEntity_then_parse_witness :
  bind (forEntity (lit "#" ++ lit "room:example.org")) parsePermalink
  = Ok (Room (lit "#" ++ upto qmark (lit "room:example.org"))
             (parse_via (upto qmark (after qmark (lit "room:example.org"))))).
Proof.
  apply (proj2 (proj2 (forEntity_then_parse (lit "room:example.org")))).
  vm_compute. intros H.
  repeat (destruct H as [H|H]; [discriminate H|]); exact H.
Defined.

Lemma encodeServerCandidates_rendered (cs es : list jsstring) :
  Forall2 (fun c e => encodeURIComponent c = Ok e) cs es ->
  encodeServerCandidates (Some cs)
  = Ok (match es with
        | [] => []
        | _ :: _ => lit "?" ++ lit "via=" ++ join (lit "&via=") es
        end).
Proof.
  intros H. pose proof H as Hm. apply map_throwing_Forall2 in Hm.
  unfold encodeServerCandidates.
  destruct H as [|c e cs es Hc Hcs]; [reflexivity|].
  cbn [List.length Nat.eqb]. rewrite Hm. reflexivity.
Qed.

(** X9. When the ids hold no "/" and no "?", building and then parsing
    gives the ids back, and each candidate comes back percent-encoded
    (the empty ones dropped), in the order given. *)
Theorem build_then_parse (kind : jsstring) (sg : char16) (room : jsstring)
        (cs es : list jsstring) :
  In (kind, [sg]) room_kinds ->
  Forall2 (fun c e => encodeURIComponent c = Ok e) cs es ->
  ~ In slash room ->
  (~ In qmark room ->
   bind (forRoom (sg :: room) cs) parsePermalink
   = Ok (Room (sg :: room) (filter truthy es)))
  /\ (forall event,
         ~ In qmark event ->
         bind (forEvent (sg :: room) (lit "$" ++ event) cs) parsePermalink
         = Ok (Event (sg :: room) (lit "$" ++ event) (filter truthy es))).
Proof.
  intros Hk Hes Hs. split.
  - intros Hq. rewrite (forRoom_shape kind sg room cs Hk).
    rewrite (encodeServerCandidates_rendered cs es Hes). cbn [bind].
    destruct (rendered_query cs es room Hes) as [Hsq Hparse].
    rewrite (parse_room kind [sg]) by (try exact Hk; apply not_in_app; assumption).
    destruct (Hparse Hq) as [-> ->]. reflexivity.
  - intros event Hq.
    change (lit "$" ++ event) with (36%N :: event).
    rewrite (forEvent_shape kind sg room event cs Hk).
    rewrite (encodeServerCandidates_rendered cs es Hes). cbn [bind].
    destruct (rendered_query cs es event Hes) as [_ Hparse].
    rewrite (parse_event kind [sg]) by assumption.
    destruct (Hparse Hq) as [-> ->]. reflexivity.
Qed.

Lemma build_then_parse_witness :
  bind (forRoom (35%N :: lit "room:example.org")
                [lit "example.org:8448"; lit ""; lit "[::1]"])
       parsePermalink
  = Ok (Room (35%N :: lit "room:example.org")
             (filter truthy [lit "example.org%3A8448"; lit ""; lit "%5B%3A%3A1%5D"])).
Proof.
  apply (proj1 (build_then_parse (lit "r") 35%N (lit "room:example.org")
                  [lit "example.org:8448"; lit ""; lit "[::1]"]
                  [lit "example.org%3A8448"; lit ""; lit "%5B%3A%3A1%5D"]
                  (or_introl eq_refl)
                  ltac:(repeat constructor)
                  ltac:(vm_compute; intros H;
                        repeat (destruct H as [H|H]; [discriminate H|]); exact H)));
    vm_compute; intros H;
    repeat (destruct H as [H|H]; [discriminate H|]); exact H.
Defined.

(** X10. The query encodeServerCandidates returns never holds a "/", and
    its only "?" is its first character: appended to a path it adds no
    segment and starts exactly one query. It is empty exactly for no
    candidates. *)
Theorem encodeServerCandidates_query (cs : list jsstring) (q : jsstring) :
  encodeServerCandidates (Some cs) = Ok q ->
  ~ In slash q
  /\ ((cs = [] /\ q = [])
      \/ (cs <> [] /\ exists q', q = qmark :: q' /\ ~ In qmark q')).
Proof.
  intros H.
  destruct (encodeServerCandidates_shape cs) as [(es & Hes & E)|[[e E] _]];
    [|congruence].
  rewrite E in H. inversion H as [Hq]. clear H E.
  split; [exact (proj1 (rendered_query cs es [] Hes))|].
  destruct Hes as [|c e cs es Hc Hcs]; [left; split; reflexivity|].
  right. split; [discriminate|].
  exists (lit "via=" ++ join (lit "&via=") (e :: es)). split; [reflexivity|].
  apply not_in_app; [vm_compute; intuition discriminate|].
  apply join_not_in; [vm_compute; intuition discriminate|].
  pose proof (encoded_inert (c :: cs) (e :: es) (Forall2_cons _ _ Hc Hcs)) as Hin.
  eapply Forall_impl; [|exact Hin].
  intros x Hx. exact (inert_not_in qmark x eq_refl Hx).
Qed.

Lemma encodeServerCandidates_query_witness :
  ~ In slash (lit "?via=a%2Fb&via=c%3Fd")
  /\ (([lit "a/b"; lit "c?d"] = [] /\ lit "?via=a%2Fb&via=c%3Fd" = [])
      \/ ([lit "a/b"; lit "c?d"] <> []
          /\ exists q', lit "?via=a%2Fb&via=c%3Fd" = qmark :: q'
                        /\ ~ In qmark q')).
Proof.
  apply (encodeServerCandidates_query [lit "a/b"; lit "c?d"]). reflexivity.
Defined.

(** X11. An event permalink without an event id is not rejected: with
    "e" as last segment, or nothing after "e/", the result is an Event
    whose event id is the bare sigil "$" and which has no candidates. *)
Theorem parsePermalink_empty_event (kind sigil room : jsstring) :
  In (kind, sigil) room_kinds ->
  ~ In slash room ->
  parsePermalink (lit "matrix:" ++ kind ++ lit "/" ++ room ++ lit "/e")
  = Ok (Event (sigil ++ room) (lit "$") [])
  /\ parsePermalink (lit "matrix:" ++ kind ++ lit "/" ++ room ++ lit "/e/")
     = Ok (Event (sigil ++ room) (lit "$") []).
Proof.
  intros Hk Hs. split.
  - rewrite parsePermalink_matrix by apply (startsWith_app (lit "matrix:")).
    change 7 with (List.length (lit "matrix:")). rewrite substring_app.
    change (lit "/") with [slash].
    change ([slash] ++ room ++ lit "/e") with (slash :: room ++ slash :: lit "e").
    rewrite (split_app _ _ _ (room_kind_no_slash _ _ Hk)).
    rewrite (split_app _ _ _ Hs).
    rewrite split_absent by (vm_compute; intuition discriminate).
    destruct (room_kind_cases _ _ Hk) as [[-> ->]|[-> ->]]; reflexivity.
  - change (lit "/e/") with (lit "/e/" ++ []).
    rewrite (parse_event kind sigil room [] Hk Hs). reflexivity.
Qed.

Lemma parsePermalink_empty_event_witness :
  parsePermalink (lit "matrix:" ++ lit "roomid" ++ lit "/" ++ lit "abc" ++ lit "/e")
  = Ok (Event (lit "!" ++ lit "abc") (lit "$") []).
Proof.
  apply (proj1 (parsePermalink_empty_event (lit "roomid") (lit "!") (lit "abc")
                  (or_intror (or_introl eq_refl))
                  ltac:(vm_compute; intros H;
                        repeat (destruct H as [H|H]; [discriminate H|]); exact H))).
Defined.

(** * RoomSearch: the name filter and the query *)

Lemma replay_app (held : bool) (l : list RoomSearch.store_call)
      (x : RoomSearch.store_call) :
  RoomSearch.replay held (l ++ [x])
  = match RoomSearch.replay held l with
    | Some b => RoomSearch.replay b [x]
    | None => None
    end.
Proof.
  revert held; induction l as [|y l IH]; intros held; [reflexivity|].
  destruct y, held; simpl; auto.
Qed.

Lemma trimStart_truthy (s : jsstring) :
  truthy (RoomSearch.trimStart s) = existsb (fun c => negb (RoomSearch.is_space c)) s.
Proof.
  induction s as [|c s IH]; [reflexivity|]. simpl.
  destruct (RoomSearch.is_space c); [exact IH|reflexivity].
Qed.

Lemma trimStart_keeps (s : jsstring) :
  existsb (fun c => negb (RoomSearch.is_space c)) (RoomSearch.trimStart s)
  = existsb (fun c => negb (RoomSearch.is_space c)) s.
Proof.
  induction s as [|c s IH]; [reflexivity|]. simpl.
  destruct (RoomSearch.is_space c) eqn:E; [exact IH|].
  simpl. rewrite E. reflexivity.
Qed.

Lemma existsb_rev {A} (f : A -> bool) (l : list A) :
  existsb f (rev l) = existsb f l.
Proof.
  induction l as [|x l IH]; [reflexivity|]. simpl.
  rewrite existsb_app, IH. simpl. rewrite orb_false_r. apply orb_comm.
Qed.

Lemma truthy_rev (s : jsstring) : truthy (rev s) = truthy s.
Proof.
  destruct s as [|c s]; [reflexivity|]. simpl.
  destruct (rev s); reflexivity.
Qed.

(** The trimmed text is non-empty exactly when the text holds a code
    unit that is no white space. *)
Lemma trim_truthy (s : jsstring) :
  truthy (RoomSearch.trim s) = existsb (fun c => negb (RoomSearch.is_space c)) s.
Proof.
  unfold RoomSearch.trim.
  rewrite truthy_rev, trimStart_truthy, existsb_rev, trimStart_keeps.
  reflexivity.
Qed.

Lemma componentDidUpdate_keeps (prev : jsstring) (c : RoomSearch.component) :
  RoomSearch.replay false (RoomSearch.calls c)
  = Some (truthy (RoomSearch.trim (RoomSearch.search c))) ->
  let c' := RoomSearch.componentDidUpdate prev c in
  RoomSearch.replay false (RoomSearch.calls c')
  = Some (truthy (RoomSearch.trim (RoomSearch.search c')))
  /\ RoomSearch.query c' = RoomSearch.query c
  /\ RoomSearch.focused c' = RoomSearch.focused c
  /\ (RoomSearch.search c' = RoomSearch.query c'
      \/ (prev = RoomSearch.query c /\ RoomSearch.search c' = RoomSearch.search c)).
Proof.
  intros Hinv. unfold RoomSearch.componentDidUpdate.
  destruct (streq prev (RoomSearch.query c)) eqn:Eq; cbn [negb].
  { apply streq_eq in Eq. cbv zeta. auto 6. }
  cbv zeta.
  destruct (truthy (RoomSearch.trim (RoomSearch.search c))) eqn:Ehad;
    destruct (truthy (RoomSearch.trim (RoomSearch.query c))) eqn:Ehave;
    cbn [negb andb RoomSearch.calls RoomSearch.search RoomSearch.query
         RoomSearch.focused];
    rewrite ?replay_app, ?Hinv, ?Ehave; auto.
Qed.

Lemma step_keeps (c : RoomSearch.component) (e : RoomSearch.event) :
  RoomSearch.replay false (RoomSearch.calls c)
  = Some (truthy (RoomSearch.trim (RoomSearch.search c))) ->
  let c' := RoomSearch.step c e in
  RoomSearch.replay false (RoomSearch.calls c')
  = Some (truthy (RoomSearch.trim (RoomSearch.search c')))
  /\ (RoomSearch.search c = RoomSearch.query c ->
      RoomSearch.search c' = RoomSearch.query c').
Proof.
  intros Hinv.
  assert (Hset : forall q,
             let c' := RoomSearch.setQuery q c in
             RoomSearch.replay false (RoomSearch.calls c')
             = Some (truthy (RoomSearch.trim (RoomSearch.search c')))
             /\ (RoomSearch.search c = RoomSearch.query c ->
                 RoomSearch.search c' = RoomSearch.query c')).
  { intros q. unfold RoomSearch.setQuery.
    destruct (componentDidUpdate_keeps (RoomSearch.query c)
                (RoomSearch.mk q (RoomSearch.focused c) (RoomSearch.search c)
                               (RoomSearch.calls c)) Hinv)
      as (H1 & H2 & _ & H4).
    cbv zeta. split; [exact H1|]. intros Hsq.
    destruct H4 as [H4|[H4 H5]]; [exact H4|].
    rewrite H5, H2. cbn in *. congruence. }
  assert (Hfoc : forall f,
             let c' := RoomSearch.setFocused f c in
             RoomSearch.replay false (RoomSearch.calls c')
             = Some (truthy (RoomSearch.trim (RoomSearch.search c')))
             /\ (RoomSearch.search c = RoomSearch.query c ->
                 RoomSearch.search c' = RoomSearch.query c')).
  { intros f. unfold RoomSearch.setFocused.
    destruct (componentDidUpdate_keeps (RoomSearch.query c)
                (RoomSearch.mk (RoomSearch.query c) f (RoomSearch.search c)
                               (RoomSearch.calls c)) Hinv)
      as (H1 & H2 & _ & H4).
    cbv zeta. split; [exact H1|]. intros Hsq.
    destruct H4 as [H4|[H4 H5]]; [exact H4|].
    rewrite H5, H2. cbn in *. congruence. }
  destruct e as [[value|]|[|]| | |char|]; cbn [RoomSearch.step];
    unfold RoomSearch.onChange, RoomSearch.clearInput, RoomSearch.onFocus,
      RoomSearch.onBlur, RoomSearch.appendChar, RoomSearch.backspace;
    cbn [negb]; unfold RoomSearch.onChange; auto.
Qed.

(** X12. Through any run of events (typing, clearing, focus changes,
    appendChar, backspace) the component keeps its filter registered with
    the room list store exactly while the search text holds something
    that is no white space: addFilter and removeFilter alternate, addFilter
    is never called on a registered filter nor removeFilter on one that is
    not, and the filter's search text follows the query. *)
Theorem RoomSearch_filter_registered (events : list RoomSearch.event)
        (c : RoomSearch.component) :
  RoomSearch.replay false (RoomSearch.calls c)
  = Some (truthy (RoomSearch.trim (RoomSearch.search c))) ->
  RoomSearch.search c = RoomSearch.query c ->
  let c' := RoomSearch.run events c in
  RoomSearch.replay false (RoomSearch.calls c')
  = Some (existsb (fun x => negb (RoomSearch.is_space x)) (RoomSearch.query c'))
  /\ RoomSearch.search c' = RoomSearch.query c'.
Proof.
  revert c. induction events as [|e events IH]; intros c Hinv Hsq; cbv zeta.
  - simpl. rewrite Hinv, Hsq, trim_truthy. auto.
  - simpl. destruct (step_keeps c e Hinv) as [H1 H2].
    apply IH; [exact H1|exact (H2 Hsq)].
Qed.

Lemma RoomSearch_filter_registered_witness :
  RoomSearch.replay false
    (RoomSearch.calls
       (RoomSearch.run
          [RoomSearch.Change (Some (lit " ")); RoomSearch.AppendChar (lit "a");
           RoomSearch.Focus; RoomSearch.Backspace; RoomSearch.Clear true;
           RoomSearch.Change (Some (lit "b"))]
          (RoomSearch.mk (lit "") false (lit "") [])))
  = Some true.
Proof.
  apply (RoomSearch_filter_registered
           [RoomSearch.Change (Some (lit " ")); RoomSearch.AppendChar (lit "a");
            RoomSearch.Focus; RoomSearch.Backspace; RoomSearch.Clear true;
            RoomSearch.Change (Some (lit "b"))]
           (RoomSearch.mk (lit "") false (lit "") [])); reflexivity.
Defined.

Lemma substring2_init (s : jsstring) (x : char16) :
  RoomSearch.substring2 (s ++ [x]) 0 (Z.of_nat (List.length (s ++ [x])) - 1) = s.
Proof.
  unfold RoomSearch.substring2. rewrite length_app. cbn [List.length].
  replace (Z.min (Z.max 0 0) (Z.of_nat (List.length s + 1))) with 0%Z by lia.
  replace (Z.min (Z.max (Z.of_nat (List.length s + 1) - 1) 0)
                 (Z.of_nat (List.length s + 1)))
    with (Z.of_nat (List.length s)) by lia.
  replace (Z.min 0 (Z.of_nat (List.length s))) with 0%Z by lia.
  replace (Z.max 0 (Z.of_nat (List.length s))) with (Z.of_nat (List.length s)) by lia.
  rewrite Z.sub_0_r, Nat2Z.id. cbn [Z.to_nat skipn].
  rewrite firstn_app, firstn_all, Nat.sub_diag. cbn [firstn].
  apply app_nil_r.
Qed.

Lemma componentDidUpdate_query (prev : jsstring) (c : RoomSearch.component) :
  RoomSearch.query (RoomSearch.componentDidUpdate prev c) = RoomSearch.query c.
Proof.
  unfold RoomSearch.componentDidUpdate.
  destruct (negb (streq prev (RoomSearch.query c))); [|reflexivity].
  cbv zeta.
  cbn [RoomSearch.query RoomSearch.search RoomSearch.focused RoomSearch.calls].
  destruct (negb (truthy (RoomSearch.trim (RoomSearch.search c)))
            && truthy (RoomSearch.trim (RoomSearch.query c))); [reflexivity|].
  destruct (truthy (RoomSearch.trim (RoomSearch.search c))
            && negb (truthy (RoomSearch.trim (RoomSearch.query c))));
    reflexivity.
Qed.

(** A batch of one call is the call committed on its own. *)
Lemma batch_single (c : RoomSearch.component) (e : RoomSearch.event) :
  RoomSearch.batch c [e] = RoomSearch.step c e.
Proof.
  destruct e as [[value|]|[|]| | |char|]; reflexivity.
Qed.

Lemma pending_app (c : RoomSearch.component) (es fs : list RoomSearch.event) :
  RoomSearch.pending c (es ++ fs)
  = RoomSearch.pending c es ++ RoomSearch.pending c fs.
Proof. unfold RoomSearch.pending. apply flat_map_app. Qed.

(** The query of a batch is the one of the last call that names it. *)
Lemma batch_last_query (c : RoomSearch.component) (es : list RoomSearch.event)
      (e : RoomSearch.event) (q : jsstring) :
  RoomSearch.requested c e = Some (RoomSearch.mkUpdate (Some q) None) ->
  RoomSearch.query (RoomSearch.batch c (es ++ [e])) = q.
Proof.
  intros He. unfold RoomSearch.batch. rewrite pending_app.
  assert (Hp : RoomSearch.pending c [e] = [RoomSearch.mkUpdate (Some q) None]).
  { unfold RoomSearch.pending. cbn [flat_map]. rewrite He. reflexivity. }
  rewrite Hp.
  destruct (RoomSearch.pending c es ++ [RoomSearch.mkUpdate (Some q) None])
    as [|u us] eqn:E.
  { destruct (RoomSearch.pending c es); discriminate E. }
  rewrite <- E. cbv zeta. rewrite componentDidUpdate_query.
  cbn [RoomSearch.query]. rewrite fold_left_app. reflexivity.
Qed.



Lemma batch_keeps (c : RoomSearch.component) (es : list RoomSearch.event) :
  RoomSearch.replay false (RoomSearch.calls c)
  = Some (truthy (RoomSearch.trim (RoomSearch.search c))) ->
  let c' := RoomSearch.batch c es in
  RoomSearch.replay false (RoomSearch.calls c')
  = Some (truthy (RoomSearch.trim (RoomSearch.search c')))
  /\ (RoomSearch.search c = RoomSearch.query c ->
      RoomSearch.search c' = RoomSearch.query c').
Proof.
  intros Hinv. cbv zeta. unfold RoomSearch.batch.
  destruct (RoomSearch.pending c es) as [|u us]; [auto|].
  cbv zeta.
  set (state := fold_left RoomSearch.merge (u :: us)
                          (RoomSearch.query c, RoomSearch.focused c)).
  destruct (componentDidUpdate_keeps (RoomSearch.query c)
              (RoomSearch.mk (fst state) (snd state) (RoomSearch.search c)
                             (RoomSearch.calls c)) Hinv)
    as (H1 & H2 & _ & H4).
  split; [exact H1|]. intros Hsq.
  destruct H4 as [H4|[H4 H5]]; [exact H4|].
  rewrite H5, H2. cbn in *. congruence.
Qed.

(** X18. The filter stays registered exactly while the search text holds
    something that is no white space also when React commits several
    calls together: through any run of batches addFilter and removeFilter
    alternate, none of them is called out of turn, and the filter's
    search text follows the query. A run of events each committed on its
    own is the run of the batches of one event. *)
Theorem RoomSearch_batches_filter_registered
        (batches : list (list RoomSearch.event)) (c : RoomSearch.component) :
  RoomSearch.replay false (RoomSearch.calls c)
  = Some (truthy (RoomSearch.trim (RoomSearch.search c))) ->
  RoomSearch.search c = RoomSearch.query c ->
  let c' := RoomSearch.run_batches batches c in
  RoomSearch.replay false (RoomSearch.calls c')
  = Some (existsb (fun x => negb (RoomSearch.is_space x)) (RoomSearch.query c'))
  /\ RoomSearch.search c' = RoomSearch.query c'
  /\ (forall events d,
        RoomSearch.run events d
        = RoomSearch.run_batches (map (fun e => [e]) events) d).
Proof.
  intros Hinv Hsq. cbv zeta.
  assert (Hrun : forall events d,
             RoomSearch.run events d
             = RoomSearch.run_batches (map (fun e => [e]) events) d).
  { intros events. induction events as [|e events IH]; intros d;
      [reflexivity|].
    unfold RoomSearch.run, RoomSearch.run_batches in *.
    cbn [map fold_left]. rewrite batch_single. apply IH. }
  assert (H : RoomSearch.replay false
                (RoomSearch.calls (RoomSearch.run_batches batches c))
              = Some (truthy (RoomSearch.trim
                                (RoomSearch.search
                                   (RoomSearch.run_batches batches c))))
              /\ RoomSearch.search (RoomSearch.run_batches batches c)
                 = RoomSearch.query (RoomSearch.run_batches batches c)).
  { revert c Hinv Hsq.
    induction batches as [|b batches IH]; intros c Hinv Hsq.
    - simpl. auto.
    - unfold RoomSearch.run_batches in *. cbn [fold_left].
      destruct (batch_keeps c b Hinv) as [H1 H2].
      apply IH; [exact H1|exact (H2 Hsq)]. }
  destruct H as [H1 H2].
  split; [|split; [exact H2|exact Hrun]].
  rewrite H1, H2, trim_truthy. reflexivity.
Qed.

Lemma RoomSearch_batches_filter_registered_witness :
  RoomSearch.replay false
    (RoomSearch.calls
       (RoomSearch.run_batches
          [[RoomSearch.Change (Some (lit "ab"))];
           [RoomSearch.AppendChar (lit "c"); RoomSearch.Focus;
            RoomSearch.Backspace];
           [RoomSearch.Backspace; RoomSearch.Blur];
           [RoomSearch.Clear true; RoomSearch.AppendChar (lit "d")]]
          (RoomSearch.mk (lit "") false (lit "") [])))
  = Some true.
Proof.
  apply (RoomSearch_batches_filter_registered
           [[RoomSearch.Change (Some (lit "ab"))];
            [RoomSearch.AppendChar (lit "c"); RoomSearch.Focus;
             RoomSearch.Backspace];
            [RoomSearch.Backspace; RoomSearch.Blur];
            [RoomSearch.Clear true; RoomSearch.AppendChar (lit "d")]]
           (RoomSearch.mk (lit "") false (lit "") [])); reflexivity.
Defined.

(** * SearchResultTile: the children of a search result *)

Lemma lit_injective (a b : string) : lit a = lit b -> a = b.
Proof.
  unfold lit. intros H.
  rewrite <- (string_of_list_ascii_of_string a), <- (string_of_list_ascii_of_string b).
  f_equal. revert H.
  generalize (list_ascii_of_string a) (list_ascii_of_string b).
  intros l; induction l as [|x l IH]; intros [|y m] H; try discriminate H;
    [reflexivity|].
  inversion H as [[Hxy Hlm]]. f_equal; [|exact (IH _ Hlm)].
  rewrite <- (ascii_N_embedding x), <- (ascii_N_embedding y), Hxy. reflexivity.
Qed.

Lemma string_of_uint_injective (d e : Decimal.uint) :
  NilEmpty.string_of_uint d = NilEmpty.string_of_uint e -> d = e.
Proof.
  intros H. pose proof (NilEmpty.usu d) as Hd. rewrite H, NilEmpty.usu in Hd.
  inversion Hd. reflexivity.
Qed.

Lemma decimal_injective (a b : nat) :
  SearchResultTile.decimal a = SearchResultTile.decimal b -> a = b.
Proof.
  intros H. apply Unsigned.to_uint_inj, string_of_uint_injective, lit_injective, H.
Qed.

Lemma decimal_digits (j : nat) (c : char16) :
  In c (SearchResultTile.decimal j) -> (48 <= c <= 57)%N.
Proof.
  unfold SearchResultTile.decimal. generalize (Nat.to_uint j). intros d.
  induction d; simpl; intros H; try contradiction;
    (destruct H as [<-|H]; [vm_compute; split; discriminate|exact (IHd H)]).
Qed.

(** The key of the date separator is the key of no tile: it ends in "h",
    a tile's key in a digit. *)
Lemma separator_key_differs (ts eventId : jsstring) (j : nat) :
  ts ++ lit "-search" <> eventId ++ lit "+" ++ SearchResultTile.decimal j.
Proof.
  intros H. apply (f_equal (@rev N)) in H.
  rewrite !rev_app_distr in H.
  change (rev (lit "-search")) with (104%N :: rev (lit "-searc")) in H.
  destruct (rev (SearchResultTile.decimal j)) as [|d ds] eqn:E.
  - simpl in H. inversion H.
  - assert (Hin : In d (SearchResultTile.decimal j)).
    { apply in_rev. rewrite E. left. reflexivity. }
    apply decimal_digits in Hin.
    simpl in H. injection H as Hd _. rewrite <- Hd in Hin. lia.
Qed.

Section SearchResultTileFacts.

Import SearchResultTile.

Variables MatrixEvent Number Passthrough : Type.
Variable getId : MatrixEvent -> jsstring.
Variable getTs : MatrixEvent -> Number.
Variable toString : Number -> jsstring.
Variable haveTileForEvent : MatrixEvent -> bool.

Let tile_loop (props : IProps MatrixEvent Passthrough) (eventId : jsstring)
    (j : nat) (timeline : list MatrixEvent)
    (ret : list (element MatrixEvent Number Passthrough)) :=
  loop haveTileForEvent props eventId j timeline ret.

Lemma loop_app (props : IProps MatrixEvent Passthrough) (eventId : jsstring)
      (timeline : list MatrixEvent) :
  forall j ret, tile_loop props eventId j timeline ret
                = ret ++ tile_loop props eventId j timeline [].
Proof.
  unfold tile_loop.
  induction timeline as [|ev timeline IH]; intros j ret; simpl.
  - symmetry. apply app_nil_r.
  - destruct (haveTileForEvent ev).
    + rewrite (IH (S j) (ret ++ _)), (IH (S j) [_]), app_assoc. reflexivity.
    + apply IH.
Qed.

Lemma loop_cons (props : IProps MatrixEvent Passthrough) (eventId : jsstring)
      (j : nat) (ev : MatrixEvent) (timeline : list MatrixEvent) :
  tile_loop props eventId j (ev :: timeline) []
  = (if haveTileForEvent ev then
       [EventTile
          {| key := eventId ++ lit "+" ++ decimal j;
             mxEvent := ev;
             contextual :=
               negb (Z.eqb (Z.of_nat j) (getOurEventIndex (searchResult props)));
             highlights :=
               if negb (negb (Z.eqb (Z.of_nat j)
                                    (getOurEventIndex (searchResult props))))
               then searchHighlights props else None;
             handedOn := passthrough props |}]
     else [])
    ++ tile_loop props eventId (S j) timeline [].
Proof.
  unfold tile_loop. simpl. destruct (haveTileForEvent ev); [|reflexivity].
  apply loop_app.
Qed.

(** Every key made by the loop from index [j] on is the event id, "+" and
    an index not below [j], and what the loop makes are tiles. *)
Lemma loop_keys (props : IProps MatrixEvent Passthrough) (eventId : jsstring)
      (timeline : list MatrixEvent) :
  forall j e,
    In e (tile_loop props eventId j timeline []) ->
    (exists k, j <= k /\ key_of e = eventId ++ lit "+" ++ decimal k)
    /\ exists t, e = EventTile t.
Proof.
  induction timeline as [|ev timeline IH]; intros j e H; [destruct H|].
  rewrite loop_cons in H. apply in_app_or in H as [H|H].
  - destruct (haveTileForEvent ev); [|destruct H].
    destruct H as [<-|[]]. split; [exists j; split; [lia|reflexivity]|].
    eexists; reflexivity.
  - destruct (IH _ _ H) as ((k & Hk & E) & Ht). split; [|exact Ht].
    exists k. split; [lia|exact E].
Qed.

Lemma loop_keys_NoDup (props : IProps MatrixEvent Passthrough)
      (eventId : jsstring) (timeline : list MatrixEvent) :
  forall j, NoDup (map key_of (tile_loop props eventId j timeline [])).
Proof.
  induction timeline as [|ev timeline IH]; intros j; [constructor|].
  rewrite loop_cons. destruct (haveTileForEvent ev); [|apply IH].
  simpl. constructor; [|apply IH].
  intros Hin. apply in_map_iff in Hin as (e & He & Hin).
  destruct (proj1 (loop_keys _ _ _ _ _ Hin)) as (k & Hk & E).
  rewrite E in He.
  apply app_inv_head in He. apply (app_inv_head (lit "+")) in He.
  apply decimal_injective in He. lia.
Qed.

(** X14. The children of a search result have pairwise distinct keys,
    whatever the event id and the timestamp are. *)
Theorem SearchResultTile_keys_distinct (props : IProps MatrixEvent Passthrough) :
  NoDup (map key_of (snd (render getId getTs toString haveTileForEvent props))).
Proof.
  unfold render. cbv zeta. cbn [snd].
  fold (tile_loop props (getId (getEvent (searchResult props))) 0
          (getTimeline (searchResult props))
          [DateSeparator
             (toString (getTs (getEvent (searchResult props))) ++ lit "-search")
             (getTs (getEvent (searchResult props)))]).
  rewrite loop_app. simpl. constructor; [|apply loop_keys_NoDup].
  intros Hin. apply in_map_iff in Hin as (e & He & Hin).
  destruct (proj1 (loop_keys _ _ _ _ _ Hin)) as (k & _ & E).
  rewrite E in He.
  exact (separator_key_differs _ _ _ (eq_sym He)).
Qed.

(** The tiles of the loop, counted by whether they are contextual. *)
Lemma loop_tiles (props : IProps MatrixEvent Passthrough) (eventId : jsstring)
      (timeline : list MatrixEvent) :
  forall j,
    let tiles := tiles_of (tile_loop props eventId j timeline []) in
    let index := getOurEventIndex (searchResult props) in
    map mxEvent tiles = filter haveTileForEvent timeline
    /\ Forall (fun t =>
                 (contextual t = true /\ highlights t = None)
                 \/ (contextual t = false
                     /\ highlights t = searchHighlights props
                     /\ (Z.of_nat j <= index)%Z
                     /\ nth_error timeline (Z.to_nat index - j)
                        = Some (mxEvent t))) tiles
    /\ List.length (filter (fun t => negb (contextual t)) tiles)
       <= (if (Z.of_nat j <=? index)%Z then 1 else 0).
Proof.
  induction timeline as [|ev timeline IH]; intros j; cbv zeta.
  - simpl. repeat split; try constructor.
    destruct (Z.of_nat j <=? _)%Z; lia.
  - rewrite loop_cons. unfold tiles_of. rewrite flat_map_app.
    destruct (IH (S j)) as (Hev & Hctx & Hcount).
    unfold tiles_of in Hev, Hctx, Hcount.
    set (rest := flat_map _ (tile_loop props eventId (S j) timeline [])) in *.
    set (index := getOurEventIndex (searchResult props)) in *.
    assert (Hctx' : Forall (fun t =>
                 (contextual t = true /\ highlights t = None)
                 \/ (contextual t = false
                     /\ highlights t = searchHighlights props
                     /\ (Z.of_nat j <= index)%Z
                     /\ nth_error (ev :: timeline) (Z.to_nat index - j)
                        = Some (mxEvent t))) rest).
    { eapply Forall_impl; [|exact Hctx]. intros t [H|(H1 & H2 & H3 & H4)];
        [left; exact H|right]. repeat split; try assumption; [lia|].
      replace (Z.to_nat index - j) with (S (Z.to_nat index - S j)) by lia.
      exact H4. }
    assert (Hcount' : (Z.of_nat j =? index)%Z = true ->
                      List.length (filter (fun t => negb (contextual t)) rest) = 0).
    { intros E. apply Z.eqb_eq in E.
      destruct (Z.leb_spec (Z.of_nat (S j)) index); lia. }
    destruct (haveTileForEvent ev) eqn:Hhave; cbn [flat_map app map filter].
    + rewrite Hhave, Hev. split; [reflexivity|]. split.
      * constructor; [|exact Hctx']. cbn.
        destruct (Z.eqb_spec (Z.of_nat j) index) as [E|E]; cbn.
        -- right. repeat split; [lia|].
           replace (Z.to_nat index - j) with 0 by lia. reflexivity.
        -- left. split; reflexivity.
      * cbn. destruct (Z.eqb_spec (Z.of_nat j) index) as [E|E]; cbn.
        -- rewrite Hcount' by reflexivity.
           destruct (Z.leb_spec (Z.of_nat j) index); lia.
        -- destruct (Z.leb_spec (Z.of_nat (S j)) index);
             destruct (Z.leb_spec (Z.of_nat j) index); lia.
    + rewrite Hhave. split; [exact Hev|]. split; [exact Hctx'|].
      destruct (Z.leb_spec (Z.of_nat (S j)) index);
        destruct (Z.leb_spec (Z.of_nat j) index); lia.
Qed.

Lemma tiles_only (l : list (element MatrixEvent Number Passthrough)) :
  (forall e, In e l -> exists t, e = EventTile t) ->
  l = map EventTile (tiles_of l).
Proof.
  induction l as [|e l IHl]; intros Hl; [reflexivity|].
  destruct (Hl e (or_introl eq_refl)) as [t ->]. simpl. f_equal.
  apply IHl. intros e' He'. apply Hl. right. exact He'.
Qed.


End SearchResultTileFacts.

(** * VideoFeed: the NewStream listener over the life of the component *)

Section VideoFeedFacts.

Variables CallFeed MatrixCall MediaStream : Type.
Variable stream : CallFeed -> MediaStream.
Variable same : CallFeed -> CallFeed -> bool.
Hypothesis same_spec : forall a b, same a b = true <-> a = b.

Local Abbreviation instance := (VideoFeed.instance CallFeed MatrixCall).
Let feed_of (i : instance) : CallFeed := VideoFeed.feed (VideoFeed.props i).
Let count (held : nat) (x : CallFeed)
    (effects : list (VideoFeed.effect CallFeed MediaStream)) : nat :=
  VideoFeed.listeners same held x effects.

Lemma same_refl (a : CallFeed) : same a a = true.
Proof. apply same_spec. reflexivity. Qed.

Lemma same_sym (a b : CallFeed) : same a b = same b a.
Proof.
  destruct (same a b) eqn:E1, (same b a) eqn:E2; try reflexivity.
  - apply same_spec in E1. subst. rewrite same_refl in E2. discriminate.
  - apply same_spec in E2. subst. rewrite same_refl in E1. discriminate.
Qed.

Lemma count_app (h : nat) (x : CallFeed)
      (a b : list (VideoFeed.effect CallFeed MediaStream)) :
  count h x (a ++ b) = count (count h x a) x b.
Proof.
  unfold count. revert h; induction a as [|e a IH]; intros h; [reflexivity|].
  destruct e; simpl; apply IH.
Qed.

Lemma count_playMedia (h : nat) (x : CallFeed) (i : instance) :
  count h x (VideoFeed.playMedia stream i) = h.
Proof.
  unfold count, VideoFeed.playMedia.
  destruct (VideoFeed.hasElement i), (VideoFeed.playThrows i); reflexivity.
Qed.

Lemma count_stopMedia (h : nat) (x : CallFeed) (i : instance) :
  count h x (VideoFeed.stopMedia (MediaStream := MediaStream) i) = h.
Proof.
  unfold count, VideoFeed.stopMedia. destruct (VideoFeed.hasElement i); reflexivity.
Qed.

Lemma count_add (h : nat) (x f : CallFeed)
      (rest : list (VideoFeed.effect CallFeed MediaStream)) :
  count h x (VideoFeed.addListener f :: rest)
  = count (if same f x then S h else h) x rest.
Proof. reflexivity. Qed.

Lemma count_remove (h : nat) (x f : CallFeed)
      (rest : list (VideoFeed.effect CallFeed MediaStream)) :
  count h x (VideoFeed.removeListener f :: rest)
  = count (if same f x then Nat.pred h else h) x rest.
Proof. reflexivity. Qed.

Lemma count_mount (h : nat) (x : CallFeed) (i : instance) :
  count h x (VideoFeed.componentDidMount stream same i)
  = if same (feed_of i) x then S h else h.
Proof.
  unfold VideoFeed.componentDidMount, VideoFeed.updateFeed.
  cbn [VideoFeed.same_or_null app].
  rewrite count_add, count_app, !count_playMedia. reflexivity.
Qed.

Lemma count_unmount (h : nat) (x : CallFeed) (i : instance) :
  count h x (VideoFeed.componentWillUnmount stream same i)
  = if same (feed_of i) x then Nat.pred h else h.
Proof.
  unfold VideoFeed.componentWillUnmount, VideoFeed.updateFeed.
  cbn [VideoFeed.same_or_null]. rewrite app_nil_r, count_app.
  rewrite count_remove, count_stopMedia.
  unfold count. destruct (VideoFeed.hasElement i); reflexivity.
Qed.

Lemma count_update (h : nat) (x : CallFeed) (prev this : instance) :
  count h x (VideoFeed.componentDidUpdate stream same (VideoFeed.props prev) this)
  = if same (feed_of prev) (feed_of this) then h
    else if same (feed_of this) x then S (Nat.pred h) else h.
Proof.
  unfold VideoFeed.componentDidUpdate, VideoFeed.updateFeed.
  cbn [VideoFeed.same_or_null]. unfold feed_of.
  destruct (same (VideoFeed.feed (VideoFeed.props prev))
                 (VideoFeed.feed (VideoFeed.props this))); [reflexivity|].
  rewrite count_app, count_remove, count_stopMedia, count_add, count_playMedia.
  destruct (same (VideoFeed.feed (VideoFeed.props this)) x); reflexivity.
Qed.

Lemma count_updates (x : CallFeed) (later : list instance) :
  forall (prev : instance) (seen : list CallFeed),
    In (feed_of prev) seen ->
    count (if existsb (same x) seen then 1 else 0) x
          (VideoFeed.updates stream same prev later)
    = if existsb (same x) (seen ++ map feed_of later) then 1 else 0.
Proof.
  induction later as [|this later IH]; intros prev seen Hin.
  - simpl. rewrite app_nil_r. reflexivity.
  - cbn [VideoFeed.updates map]. rewrite count_app, count_update.
    replace (seen ++ feed_of this :: map feed_of later)
      with ((seen ++ [feed_of this]) ++ map feed_of later)
      by (rewrite <- app_assoc; reflexivity).
    rewrite <- (IH this (seen ++ [feed_of this]))
      by (apply in_or_app; right; left; reflexivity).
    f_equal. rewrite existsb_app. cbn [existsb]. rewrite orb_false_r.
    destruct (same (feed_of prev) (feed_of this)) eqn:Epn.
    + apply same_spec in Epn.
      destruct (same x (feed_of this)) eqn:Ex; [|rewrite orb_false_r; reflexivity].
      rewrite orb_true_r.
      assert (Hs : existsb (same x) seen = true).
      { apply existsb_exists. exists (feed_of prev). split; [exact Hin|].
        rewrite Epn. exact Ex. }
      rewrite Hs. reflexivity.
    + rewrite (same_sym (feed_of this) x).
      destruct (same x (feed_of this)); [rewrite orb_true_r|rewrite orb_false_r];
        destruct (existsb (same x) seen); reflexivity.
Qed.

Lemma count_firstn_app (h : nat) (x : CallFeed) (n : nat)
      (a b : list (VideoFeed.effect CallFeed MediaStream)) :
  count h x (firstn n (a ++ b))
  = count (count h x (firstn n a)) x (firstn (n - List.length a) b).
Proof. rewrite firstn_app. apply count_app. Qed.

(** A bound that holds after every prefix of two lists of effects holds
    after every prefix of the two in sequence. *)
Lemma low_app (h : nat) (x : CallFeed)
      (a b : list (VideoFeed.effect CallFeed MediaStream)) :
  (forall n, count h x (firstn n a) <= 1) ->
  (forall n, count (count h x a) x (firstn n b) <= 1) ->
  forall n, count h x (firstn n (a ++ b)) <= 1.
Proof.
  intros Ha Hb n. rewrite count_firstn_app.
  destruct (Nat.le_gt_cases n (List.length a)) as [Hn|Hn].
  - replace (n - List.length a) with 0 by lia. cbn [firstn]. apply Ha.
  - rewrite (firstn_all2 (n := n) a) by lia. apply Hb.
Qed.

Lemma low_end (h : nat) (x : CallFeed)
      (a : list (VideoFeed.effect CallFeed MediaStream)) :
  (forall n, count h x (firstn n a) <= 1) -> count h x a <= 1.
Proof.
  intros Ha. specialize (Ha (List.length a)). rewrite firstn_all in Ha. exact Ha.
Qed.

Lemma prefix_playMedia (h : nat) (x : CallFeed) (i : instance) (n : nat) :
  count h x (firstn n (VideoFeed.playMedia stream i)) = h.
Proof.
  unfold count, VideoFeed.playMedia.
  destruct (VideoFeed.hasElement i), (VideoFeed.playThrows i); cbn [negb app];
    repeat (destruct n as [|n]; try reflexivity).
Qed.

Lemma prefix_stopMedia (h : nat) (x : CallFeed) (i : instance) (n : nat) :
  count h x (firstn n (VideoFeed.stopMedia (MediaStream := MediaStream) i)) = h.
Proof.
  unfold count, VideoFeed.stopMedia.
  destruct (VideoFeed.hasElement i); cbn [negb];
    repeat (destruct n as [|n]; try reflexivity).
Qed.

Lemma low_remove (h : nat) (x : CallFeed) (i : instance) :
  h <= 1 ->
  forall n,
    count h x
          (firstn n (VideoFeed.removeListener (feed_of i)
                       :: VideoFeed.stopMedia (MediaStream := MediaStream) i))
    <= 1.
Proof.
  intros Hh [|n]; [exact Hh|].
  cbn [firstn]. rewrite count_remove, prefix_stopMedia.
  destruct (same (feed_of i) x); lia.
Qed.

Lemma low_add (h : nat) (x : CallFeed) (i : instance) :
  h = 0 \/ (same (feed_of i) x = false /\ h <= 1) ->
  forall n,
    count h x
          (firstn n (VideoFeed.addListener (feed_of i)
                       :: VideoFeed.playMedia stream i))
    <= 1.
Proof.
  intros Hh [|n]; [cbn [firstn]; unfold count; cbn; lia|].
  cbn [firstn]. rewrite count_add, prefix_playMedia.
  destruct Hh as [Hh|[Hf Hh]]; [|rewrite Hf; exact Hh].
  destruct (same (feed_of i) x); lia.
Qed.

Lemma low_mount (x : CallFeed) (i : instance) :
  forall n, count 0 x (firstn n (VideoFeed.componentDidMount stream same i)) <= 1.
Proof.
  unfold VideoFeed.componentDidMount, VideoFeed.updateFeed.
  cbn [VideoFeed.same_or_null].
  assert (Ha : forall n,
             count 0 x
                   (firstn n (VideoFeed.addListener (feed_of i)
                                :: VideoFeed.playMedia stream i))
             <= 1) by (apply low_add; left; reflexivity).
  apply (low_app 0 x
           (VideoFeed.addListener (feed_of i) :: VideoFeed.playMedia stream i)
           (VideoFeed.playMedia stream i) Ha).
  intros n. rewrite prefix_playMedia. apply low_end. exact Ha.
Qed.

Lemma low_update (h : nat) (x : CallFeed) (prev this : instance) :
  h <= 1 ->
  forall n,
    count h x
          (firstn n (VideoFeed.componentDidUpdate stream same
                       (VideoFeed.props prev) this))
    <= 1.
Proof.
  intros Hh. unfold VideoFeed.componentDidUpdate, VideoFeed.updateFeed.
  cbn [VideoFeed.same_or_null].
  destruct (same (VideoFeed.feed (VideoFeed.props prev))
                 (VideoFeed.feed (VideoFeed.props this))).
  { intros n. rewrite firstn_nil. exact Hh. }
  apply low_app; [apply low_remove; exact Hh|].
  rewrite count_remove, count_stopMedia.
  apply low_add. unfold feed_of.
  destruct (same (VideoFeed.feed (VideoFeed.props this)) x);
    [left; lia|right; auto].
Qed.

Lemma low_unmount (h : nat) (x : CallFeed) (i : instance) :
  h <= 1 ->
  forall n,
    count h x (firstn n (VideoFeed.componentWillUnmount stream same i)) <= 1.
Proof.
  intros Hh. unfold VideoFeed.componentWillUnmount, VideoFeed.updateFeed.
  cbn [VideoFeed.same_or_null]. rewrite app_nil_r.
  apply low_app; [apply low_remove; exact Hh|].
  intros n.
  assert (Hr : count h x (VideoFeed.removeListener (feed_of i)
                            :: VideoFeed.stopMedia (MediaStream := MediaStream) i)
               <= 1) by (apply low_end, low_remove; exact Hh).
  unfold count in *.
  destruct (VideoFeed.hasElement i);
    repeat (destruct n as [|n]; try exact Hr).
Qed.

Lemma low_updates (x : CallFeed) (later : list instance) :
  forall (prev : instance) (h : nat),
    h <= 1 ->
    forall n,
      count h x (firstn n (VideoFeed.updates stream same prev later)) <= 1.
Proof.
  induction later as [|this later IH]; intros prev h Hh.
  - intros n. cbn [VideoFeed.updates]. rewrite firstn_nil. exact Hh.
  - cbn [VideoFeed.updates].
    apply low_app; [apply low_update; exact Hh|].
    apply IH. apply low_end, low_update. exact Hh.
Qed.

(** X16. After a whole life of the component (mounted, updated through
    any feeds, unmounted) a feed still holds the component's NewStream
    listener exactly when the component showed it at some time and it is
    not the last feed shown: a change of feed removes no listener from the
    feed left behind. At no moment of that life does a feed hold more
    than one: it holds at most one after every prefix of the calls the
    component makes. *)
Theorem VideoFeed_listeners_after_life (first : instance)
        (later : list instance) (x : CallFeed) :
  VideoFeed.listeners same 0 x (VideoFeed.life stream same first later)
  = (if existsb (same x) (map feed_of (first :: later))
        && negb (same x (feed_of (last later first)))
     then 1 else 0)
  /\ (forall n,
        VideoFeed.listeners same 0 x
          (firstn n (VideoFeed.life stream same first later))
        <= 1).
Proof.
  split.
  - fold (count 0 x (VideoFeed.life stream same first later)).
    unfold VideoFeed.life. rewrite !count_app, count_mount.
    assert (Hm : (if same (feed_of first) x then 1 else 0)
                 = if existsb (same x) [feed_of first] then 1 else 0).
    { cbn [existsb]. rewrite orb_false_r, (same_sym x). reflexivity. }
    rewrite Hm, (count_updates x later first [feed_of first])
      by (left; reflexivity).
    rewrite count_unmount. cbn [map app]. unfold feed_of.
    set (l := VideoFeed.feed (VideoFeed.props (last later first))).
    rewrite (same_sym l x). clear Hm.
    destruct (same x l); destruct (existsb (same x) (_ :: _)); reflexivity.
  - intros n.
    fold (count 0 x (firstn n (VideoFeed.life stream same first later))).
    revert n. unfold VideoFeed.life.
    assert (H1 : count 0 x (VideoFeed.componentDidMount stream same first) <= 1)
      by apply low_end, low_mount.
    apply low_app; [apply low_mount|].
    apply low_app; [apply low_updates; exact H1|].
    apply low_unmount. apply low_end, low_updates. exact H1.
Qed.

End VideoFeedFacts.

Lemma VideoFeed_listeners_after_life_witness :
  VideoFeed.listeners Nat.eqb 0 1
    (VideoFeed.life (fun f : nat => f) Nat.eqb
       {| VideoFeed.props := VideoFeed.Build_IProps tt 1 None false true;
          VideoFeed.hasElement := true; VideoFeed.playThrows := false |}
       [{| VideoFeed.props := VideoFeed.Build_IProps tt 2 None false true;
           VideoFeed.hasElement := false; VideoFeed.playThrows := false |}])
  = 1.
Proof.
  exact (proj1 (VideoFeed_listeners_after_life nat unit nat (fun f => f)
                  Nat.eqb Nat.eqb_eq
                  {| VideoFeed.props := VideoFeed.Build_IProps tt 1 None false true;
                     VideoFeed.hasElement := true;
                     VideoFeed.playThrows := false |}
                  [{| VideoFeed.props := VideoFeed.Build_IProps tt 2 None false true;
                      VideoFeed.hasElement := false;
                      VideoFeed.playThrows := false |}]
                  1)).
Defined.

(** * CallViewSidebar: what the sidebar shows *)

Section SidebarFacts.

Variables CallFeed MatrixCall RoomMember : Type.
Variables isAudioMuted isVideoMuted isLocal : CallFeed -> bool.
Variable getMember : CallFeed -> RoomMember.
Variable streamId : CallFeed -> jsstring.
Variable flipVideoHorizontally : bool.

Let mirror (f : CallFeed) : jsstring :=
  if isLocal f && flipVideoHorizontally then lit " mx_VideoFeed_mirror" else lit "".

(** X17. In the sidebar every feed is shown as a secondary tile, never a
    primary one: a feed with video as the video element, a video-muted
    feed as the member's avatar of 34 pixels, or not at all when
    hideFeedsWithMutedVideo is set; so with that prop set the sidebar
    holds video elements only. *)
Theorem sidebar_tiles (props : CallViewSidebar.IProps CallFeed MatrixCall) :
  sidebar_rendered isAudioMuted isVideoMuted isLocal getMember streamId
                   flipVideoHorizontally props
  = flat_map
      (fun f =>
         if isVideoMuted f then
           if CallViewSidebar.hideFeedsWithMutedVideo props then []
           else [VideoFeed.AvatarDiv
                   (lit "mx_VideoFeed mx_VideoFeed_secondary mx_VideoFeed_voice"
                      ++ mirror f)
                   (getMember f) 34 34]
         else [VideoFeed.Video
                 (lit "mx_VideoFeed mx_VideoFeed_secondary mx_VideoFeed_video"
                    ++ mirror f)])
      (CallViewSidebar.feeds props)
  /\ (CallViewSidebar.hideFeedsWithMutedVideo props = true ->
      Forall (fun e => exists className, e = VideoFeed.Video className)
             (sidebar_rendered isAudioMuted isVideoMuted isLocal getMember
                               streamId flipVideoHorizontally props))
  /\ List.length (CallViewSidebar.render isVideoMuted streamId props)
     = List.length (CallViewSidebar.feeds props).
Proof.
  assert (Heq : sidebar_rendered isAudioMuted isVideoMuted isLocal getMember
                  streamId flipVideoHorizontally props
                = flat_map
                    (fun f =>
                       if isVideoMuted f then
                         if CallViewSidebar.hideFeedsWithMutedVideo props then []
                         else [VideoFeed.AvatarDiv
                                 (lit "mx_VideoFeed mx_VideoFeed_secondary mx_VideoFeed_voice"
                                    ++ mirror f)
                                 (getMember f) 34 34]
                       else [VideoFeed.Video
                               (lit "mx_VideoFeed mx_VideoFeed_secondary mx_VideoFeed_video"
                                  ++ mirror f)])
                    (CallViewSidebar.feeds props)).
  { unfold sidebar_rendered, CallViewSidebar.render.
    induction (CallViewSidebar.feeds props) as [|f fs IH]; [reflexivity|].
    cbn [map flat_map]. rewrite IH. f_equal.
    unfold mirror, VideoFeed.render, VideoFeed.getDerivedStateFromProps.
    destruct (isVideoMuted f) eqn:Em;
      destruct (CallViewSidebar.hideFeedsWithMutedVideo props) eqn:Eh;
      cbn [andb VideoFeed.videoMuted VideoFeed.feed VideoFeed.primary
           VideoFeed.pipMode negb];
      rewrite ?Em; cbn [negb];
      destruct (isLocal f && flipVideoHorizontally); reflexivity. }
  split; [exact Heq|split].
  - intros Hhide. rewrite Heq, Hhide. clear Heq.
    generalize (CallViewSidebar.feeds props). intros l.
    induction l as [|f fs IH]; [constructor|].
    cbn [flat_map]. destruct (isVideoMuted f); [exact IH|].
    constructor; [eexists; reflexivity|exact IH].
  - unfold CallViewSidebar.render. apply length_map.
Qed.

End SidebarFacts.
